(** * HistoricalFIFO: the store-and-queue of [queue/historical.go]

    A shallow embedding of the Go type [HistoricalFIFO] and of its methods,
    followed by the properties of the queue that the specification states.

    Conventions of the embedding.
    - [items] (a Go [map[string]Entry]) is a [gmap string Entry]; [queue]
      (a Go [[]string]) is a [list string].
    - Every method runs with the write (or read) lock held, so a method is
      one atomic transition of the state; the entries handed to the carrier
      after the lock is released are returned next to the new state.
    - [time.Now()] is an input of the transition ([now]): the readings of
      the clock within one call are taken at one instant; a [time.Time] and
      a [time.Duration] are integers (nanoseconds).
    - The tag that [Delete], [Replace] and [merge] write in place
      ([ent.event = DELETE_EVENT]) is written to a record that the map drops
      in the same critical section and that the carrier has copied before,
      so no alias observes it: the tagged record is built as a new value.
    - A failed type assertion (of an [Entry] to a pointer to [entry] or to
      [deletedEntry]) panics: the methods that contain one return a
      [result].
    - The order in which a [range] statement visits a map is not fixed by
      Go; it is the parameter [range] of the class [MapRange].
    - [cond.Wait()] in [Pop] is the outcome [Waiting].
    - The methods take values of a type [V] that implements
      [UniqueCopyable]: the panic of [checkType] on any other value is
      outside the model. *)

From stdpp Require Import base numbers strings list gmap fin_maps sets.

Local Open Scope Z_scope.

(** ** Panics *)

Inductive result (A : Type) : Type :=
  | Ok (a : A)
  | Panic.
Arguments Ok {A} a.
Arguments Panic {A}.

Definition result_bind {A B : Type} (k : A → result B) (r : result A) : result B :=
  match r with
  | Ok a => k a
  | Panic => Panic
  end.

#[global] Instance result_mbind : MBind result := @result_bind.
#[global] Instance result_mret : MRet result := @Ok.

(** ** Values: the interfaces [Copyable], [UniqueID], [UniqueCopyable] *)

(** [Copy] and [GetUID] are the two methods of the interface;
    [DeepEqual] is [reflect.DeepEqual] on two values of the type.  The two
    laws say what a deep clone and a deep comparison are on data without
    sharing. *)
Class UniqueCopyable (V : Type) : Type := {
  Copy : V → V;
  GetUID : V → string;
  DeepEqual : V → V → bool;
  DeepEqual_spec : ∀ a b : V, DeepEqual a b = true ↔ a = b;
  Copy_spec : ∀ v : V, Copy v = v
}.

(** ** The order of a [range] over a map *)

Class MapRange : Type := {
  range : ∀ {A : Type}, gmap string A → list (string * A);
  range_perm : ∀ (A : Type) (m : gmap string A), range m ≡ₚ map_to_list m
}.

(** ** Event types *)

Definition EventType : Type := Z.
Definition Time : Type := Z.

Definition ADD_EVENT : EventType := Z.shiftl 1 0.
Definition UPDATE_EVENT : EventType := Z.shiftl 1 1.
Definition DELETE_EVENT : EventType := Z.shiftl 1 2.
Definition POP_EVENT : EventType := Z.shiftl 1 3.

(** Go's [int] on a 64-bit platform. *)
Definition int_wrap (z : Z) : Z := (z + 2 ^ 63) mod 2 ^ 64 - 2 ^ 63.

Section Queue.
Context {V : Type} `{UC : UniqueCopyable V} `{MR : MapRange}.

(** ** Entries *)

Record entry : Type := mkEntry { value : V; event : EventType }.

Record deletedEntry : Type := mkDeletedEntry { entry_of : entry; expiration : Time }.

(** The interface [Entry] has two implementations in the package. *)
Inductive Entry : Type :=
  | PlainEntry (e : entry)
  | Tombstone (d : deletedEntry).

Definition entry_Is (e : entry) (types : EventType) : bool :=
  negb (Z.land types (event e) =? 0).

Definition entry_Copy (e : entry) : entry :=
  mkEntry (Copy (value e)) (event e).

Definition deletedEntry_Copy (d : deletedEntry) : deletedEntry :=
  mkDeletedEntry (entry_Copy (entry_of d)) (expiration d).

Definition Value (E : Entry) : V :=
  match E with
  | PlainEntry e => value e
  | Tombstone d => value (entry_of d)
  end.

Definition Is (E : Entry) (types : EventType) : bool :=
  match E with
  | PlainEntry e => entry_Is e types
  | Tombstone d => entry_Is (entry_of d) types
  end.

Definition Entry_Copy (E : Entry) : Entry :=
  match E with
  | PlainEntry e => PlainEntry (entry_Copy e)
  | Tombstone d => Tombstone (deletedEntry_Copy d)
  end.

(** [ent.event = DELETE_EVENT], the tag written in place. *)
Definition set_event (ent : entry) (t : EventType) : entry :=
  mkEntry (value ent) t.

(** ** The carrier *)

(** The carrier built by [NewFIFO] for a channel: a nil message is dropped,
    any other is copied and sent. *)
Definition carrier (msg : option Entry) : list Entry :=
  match msg with
  | None => []
  | Some m => [Entry_Copy m]
  end.

Definition deliver (notifications : list Entry) : list Entry :=
  notifications ≫= (λ e, carrier (Some e)).

(** ** The queue *)

Record HistoricalFIFO : Type := mkFIFO {
  items : gmap string Entry;
  queue : list string;
  gcc : Z;
  lingerTTL : Z
}.

Definition with_items (f : HistoricalFIFO) (m : gmap string Entry) : HistoricalFIFO :=
  mkFIFO m (queue f) (gcc f) (lingerTTL f).
Definition with_queue (f : HistoricalFIFO) (q : list string) : HistoricalFIFO :=
  mkFIFO (items f) q (gcc f) (lingerTTL f).
Definition with_gcc (f : HistoricalFIFO) (n : Z) : HistoricalFIFO :=
  mkFIFO (items f) (queue f) n (lingerTTL f).

(** [5 * time.Minute], in nanoseconds. *)
Definition five_minutes : Z := 5 * 60 * 1000000000.

Definition NewFIFO : HistoricalFIFO :=
  mkFIFO ∅ [] 0 five_minutes.

(** ** Garbage collection *)

(** The first loop of [gc]: one iteration, for the pair [(id, v)] that the
    range statement yields. *)
Definition gc_visit (now : Time) (acc : gmap string Entry * gset string)
    (kv : string * Entry) : result (gmap string Entry * gset string) :=
  let '(id, v) := kv in
  if Is v DELETE_EVENT then
    match v with
    | Tombstone ent =>
        if expiration ent <? now
        then Ok (delete id acc.1, {[ id ]} ∪ acc.2)
        else Ok acc
    | PlainEntry _ => Panic
    end
  else Ok acc.

Fixpoint gc_scan (now : Time) (l : list (string * Entry))
    (acc : gmap string Entry * gset string) : result (gmap string Entry * gset string) :=
  match l with
  | [] => Ok acc
  | kv :: l' => acc' ← gc_visit now acc kv; gc_scan now l' acc'
  end.

(** The second loop of [gc]: the queue is rebuilt by appending. *)
Fixpoint gc_requeue (deleted : gset string) (old : list string) (queue : list string)
    : list string :=
  match old with
  | [] => queue
  | id :: old' =>
      if decide (id ∈ deleted)
      then gc_requeue deleted old' queue
      else gc_requeue deleted old' (queue ++ [id])
  end.

Definition gc (f : HistoricalFIFO) (now : Time) : result HistoricalFIFO :=
  '(items', deleted) ← gc_scan now (range (items f)) (items f, ∅);
  Ok (mkFIFO items' (gc_requeue deleted (queue f) []) (gcc f) (lingerTTL f)).

(** ** Merge *)

(** Lines 334-359 of [merge]: the new map and the notifications. *)
Definition merge_items (f : HistoricalFIFO) (id : string) (obj : V) (now : Time)
    : result (gmap string Entry * list Entry) :=
  match items f !! id with
  | None =>
      let e := PlainEntry (mkEntry (Copy obj) ADD_EVENT) in
      Ok (<[id := e]> (items f), [e])
  | Some item =>
      if negb (Is item DELETE_EVENT)
         && bool_decide (GetUID (Value item) ≠ GetUID obj)
      then
        match item with
        | PlainEntry ent =>
            let ent := set_event ent DELETE_EVENT in
            let e1 := Tombstone (mkDeletedEntry ent (now + lingerTTL f)) in
            let e2 := PlainEntry (mkEntry (Copy obj) ADD_EVENT) in
            Ok (<[id := e2]> (items f), [e1; e2])
        | Tombstone _ => Panic
        end
      else if negb (DeepEqual obj (Value item))
      then
        let e := PlainEntry (mkEntry (Copy obj) UPDATE_EVENT) in
        Ok (<[id := e]> (items f), [e])
      else Ok (items f, [])
  end.

(** Lines 360-365 of [merge]: the counter and the sweep. *)
Definition merge_gc (f : HistoricalFIFO) (now : Time) : result HistoricalFIFO :=
  let f := with_gcc f (int_wrap (gcc f + 1)) in
  if Z.rem (gcc f) 256 =? 0
  then gc (with_gcc f 0) now
  else Ok f.

Definition merge (f : HistoricalFIFO) (id : string) (obj : V) (now : Time)
    : result (HistoricalFIFO * list Entry) :=
  '(items', notifications) ← merge_items f id obj now;
  f' ← merge_gc (with_items f items') now;
  Ok (f', notifications).

(** ** The methods *)

Definition DELETE_or_POP : EventType := Z.lor DELETE_EVENT POP_EVENT.

Definition Add (f : HistoricalFIFO) (id : string) (v : V) (now : Time)
    : result (HistoricalFIFO * list Entry) :=
  let f :=
    match items f !! id with
    | None => with_queue f (queue f ++ [id])
    | Some entry =>
        if Is entry DELETE_or_POP
        then with_queue f (queue f ++ [id])
        else f
    end in
  merge f id v now.

Definition Update (f : HistoricalFIFO) (id : string) (obj : V) (now : Time)
    : result (HistoricalFIFO * list Entry) :=
  Add f id obj now.

Definition Readd (f : HistoricalFIFO) (id : string) (v : V) (t : EventType) (now : Time)
    : result (HistoricalFIFO * list Entry) :=
  match items f !! id with
  | Some entry =>
      if negb (Is entry t) then Ok (f, [])
      else if Is entry DELETE_or_POP
      then merge (with_queue f (queue f ++ [id])) id v now
      else merge f id v now
  | None => merge f id v now
  end.

Definition Delete (f : HistoricalFIFO) (id : string) (now : Time)
    : result (HistoricalFIFO * option Entry) :=
  match items f !! id with
  | Some item =>
      if negb (Is item DELETE_EVENT)
      then
        match item with
        | PlainEntry e =>
            let e := set_event e DELETE_EVENT in
            let deleteEvent := Tombstone (mkDeletedEntry e (now + lingerTTL f)) in
            Ok (with_items f (<[id := deleteEvent]> (items f)), Some deleteEvent)
        | Tombstone _ => Panic
        end
      else Ok (f, None)
  | None => Ok (f, None)
  end.

Fixpoint List_scan (l : list (string * Entry)) (out : list V) : list V :=
  match l with
  | [] => out
  | (_, entry) :: l' =>
      if Is entry DELETE_or_POP
      then List_scan l' out
      else List_scan l' (out ++ [Copy (Value entry)])
  end.

Definition List (f : HistoricalFIFO) : list V :=
  List_scan (range (items f)) [].

Fixpoint ContainedIDs_scan (l : list (string * Entry)) (set : gset string) : gset string :=
  match l with
  | [] => set
  | (id, entry) :: l' =>
      if Is entry DELETE_or_POP
      then ContainedIDs_scan l' set
      else ContainedIDs_scan l' (set ∪ {[ id ]})
  end.

Definition ContainedIDs (c : HistoricalFIFO) : gset string :=
  ContainedIDs_scan (range (items c)) ∅.

Definition Get (f : HistoricalFIFO) (id : string) : option V :=
  match items f !! id with
  | Some entry =>
      if negb (Is entry DELETE_or_POP)
      then Some (Copy (Value entry))
      else None
  | None => None
  end.

(** What a call of [Pop] has done when control leaves the model: it has
    returned [v] (and [popEvent] goes to the carrier), or it is suspended in
    [cond.Wait()] on an empty queue. *)
Inductive PopOutcome : Type :=
  | Returned (popEvent : Entry) (v : V)
  | Waiting.

(** The outer [for] of [Pop], by recursion on the queue it consumes. *)
Fixpoint Pop_loop (its : gmap string Entry) (q : list string)
    : gmap string Entry * list string * PopOutcome :=
  match q with
  | [] => (its, [], Waiting)
  | id :: q' =>
      match its !! id with
      | None => Pop_loop its q'
      | Some item =>
          if Is item DELETE_or_POP
          then Pop_loop its q'
          else
            let value := Value item in
            let popEvent := PlainEntry (mkEntry value POP_EVENT) in
            (<[id := popEvent]> its, q', Returned popEvent (Copy value))
      end
  end.

Definition Pop (f : HistoricalFIFO) : HistoricalFIFO * PopOutcome :=
  let '(its, q, out) := Pop_loop (items f) (queue f) in
  (mkFIFO its q (gcc f) (lingerTTL f), out).

(** The first loop of [Replace]. *)
Definition Replace_visit (idToObj : gmap string V) (expires : Time)
    (acc : gmap string Entry * list Entry) (kv : string * Entry)
    : result (gmap string Entry * list Entry) :=
  let '(id, v) := kv in
  match idToObj !! id with
  | None =>
      if negb (Is v DELETE_EVENT)
      then
        match v with
        | PlainEntry ent =>
            let ent := set_event ent DELETE_EVENT in
            let e := Tombstone (mkDeletedEntry ent expires) in
            Ok (<[id := e]> acc.1, acc.2 ++ [e])
        | Tombstone _ => Panic
        end
      else Ok acc
  | Some _ => Ok acc
  end.

Fixpoint Replace_scan (idToObj : gmap string V) (expires : Time)
    (l : list (string * Entry)) (acc : gmap string Entry * list Entry)
    : result (gmap string Entry * list Entry) :=
  match l with
  | [] => Ok acc
  | kv :: l' =>
      acc' ← Replace_visit idToObj expires acc kv;
      Replace_scan idToObj expires l' acc'
  end.

(** The second loop of [Replace]. *)
Fixpoint Replace_merge (now : Time) (l : list (string * V))
    (acc : HistoricalFIFO * list Entry) : result (HistoricalFIFO * list Entry) :=
  match l with
  | [] => Ok acc
  | (id, obj) :: l' =>
      let f := with_queue acc.1 (queue acc.1 ++ [id]) in
      '(f', n) ← merge f id obj now;
      Replace_merge now l' (f', acc.2 ++ n)
  end.

Definition Replace (f : HistoricalFIFO) (idToObj : gmap string V) (now : Time)
    : result (HistoricalFIFO * list Entry) :=
  let f := with_queue f [] in
  '(items', notifications) ←
    Replace_scan idToObj (now + lingerTTL f) (range (items f)) (items f, []);
  Replace_merge now (range idToObj) (with_items f items', notifications).

(** ** Sequences of calls *)

Inductive Op : Type :=
  | OpAdd (id : string) (v : V)
  | OpUpdate (id : string) (v : V)
  | OpReadd (id : string) (v : V) (t : EventType)
  | OpDelete (id : string)
  | OpPop
  | OpReplace (idToObj : gmap string V).

(** One call at time [now]: the new state and what the carrier delivers. *)
Definition step (f : HistoricalFIFO) (op : Op) (now : Time)
    : result (HistoricalFIFO * list Entry) :=
  match op with
  | OpAdd id v => '(f', n) ← Add f id v now; Ok (f', deliver n)
  | OpUpdate id v => '(f', n) ← Update f id v now; Ok (f', deliver n)
  | OpReadd id v t => '(f', n) ← Readd f id v t now; Ok (f', deliver n)
  | OpDelete id => '(f', n) ← Delete f id now; Ok (f', carrier n)
  | OpPop =>
      match Pop f with
      | (f', Returned popEvent _) => Ok (f', carrier (Some popEvent))
      | (f', Waiting) => Ok (f', carrier None)
      end
  | OpReplace idToObj => '(f', n) ← Replace f idToObj now; Ok (f', deliver n)
  end.

Fixpoint exec (f : HistoricalFIFO) (calls : list (Op * Time)) : result HistoricalFIFO :=
  match calls with
  | [] => Ok f
  | (op, now) :: calls' => '(f', _) ← step f op now; exec f' calls'
  end.

(** Consecutive merges, as [Add], [Readd] and [Replace] make them. *)
Fixpoint merge_all (f : HistoricalFIFO) (l : list (string * V * Time))
    : result HistoricalFIFO :=
  match l with
  | [] => Ok f
  | (id, obj, now) :: l' => '(f', _) ← merge f id obj now; merge_all f' l'
  end.

(** The calls that merge a value for [id]. *)
Definition merges (op : Op) (id : string) : bool :=
  match op with
  | OpAdd k _ | OpUpdate k _ | OpReadd k _ _ => bool_decide (k = id)
  | OpReplace idToObj => bool_decide (is_Some (idToObj !! id))
  | OpDelete _ | OpPop => false
  end.

(** The calls that can write the entry of [id] when it is not live ([Pop]
    writes the entry of a live key only). *)
Definition writes (op : Op) (id : string) : bool :=
  match op with
  | OpAdd k _ | OpUpdate k _ | OpReadd k _ _ | OpDelete k => bool_decide (k = id)
  | OpReplace _ => true
  | OpPop => false
  end.

(** ** Predicates of the specification *)

(** An entry as the methods write it: a plain [entry] carries one of the
    tags Add, Update, Pop, and a [deletedEntry] carries Delete. *)
Definition well_tagged (E : Entry) : Prop :=
  match E with
  | PlainEntry e =>
      event e = ADD_EVENT ∨ event e = UPDATE_EVENT ∨ event e = POP_EVENT
  | Tombstone d => event (entry_of d) = DELETE_EVENT
  end.

Definition tags_ok (its : gmap string Entry) : Prop :=
  map_Forall (λ _ E, well_tagged E) its.

(** The states the methods produce: well-tagged entries, the counter within
    its cycle, a linger time that is not negative. *)
Definition wf (f : HistoricalFIFO) : Prop :=
  tags_ok (items f)
  ∧ 0 ≤ gcc f < 256
  ∧ 0 ≤ lingerTTL f.

(** A tombstone whose expiration is before [now]. *)
Definition expired (now : Time) (E : Entry) : bool :=
  match E with
  | Tombstone d => entry_Is (entry_of d) DELETE_EVENT && (expiration d <? now)
  | PlainEntry _ => false
  end.

(** The keys that a sweep at [now] reclaims from [its]. *)
Definition reclaimed (now : Time) (its : gmap string Entry) : gset string :=
  dom (filter (λ kE, expired now kE.2 = true) its).

(** The map that a sweep at [now] leaves. *)
Definition swept (now : Time) (its : gmap string Entry) : gmap string Entry :=
  filter (λ kE, expired now kE.2 = false) its.

(** The record behind an [Entry], and the tombstone that [Delete],
    [Replace] and the hidden delete of [merge] make of it. *)
Definition entry_part (E : Entry) : entry :=
  match E with
  | PlainEntry e => e
  | Tombstone d => entry_of d
  end.

Definition tombstone_of (expires : Time) (E : Entry) : Entry :=
  Tombstone (mkDeletedEntry (set_event (entry_part E) DELETE_EVENT) expires).

(** The test of the first loop of [Replace]. *)
Definition doomed (idToObj : gmap string V) (id : string) (E : Entry) : bool :=
  bool_decide (idToObj !! id = None) && negb (Is E DELETE_EVENT).

Definition tombstones (idToObj : gmap string V) (expires : Time)
    (l : list (string * Entry)) : list Entry :=
  (λ kE, tombstone_of expires kE.2)
    <$> filter (λ kE, doomed idToObj kE.1 kE.2 = true) l.

(** The entry of [k] after a call is the one before it, unless it was an
    expired tombstone that a sweep has reclaimed. *)
Definition kept_or_reclaimed (now : Time) (its its' : gmap string Entry)
    (k : string) : Prop :=
  its' !! k = its !! k
  ∨ its' !! k = None ∧ ∃ E, its !! k = Some E ∧ expired now E = true.

(** A live entry: neither tagged Delete nor tagged Pop. *)
Definition live_entry (E : Entry) : Prop := Is E DELETE_or_POP = false.

Definition live (f : HistoricalFIFO) (id : string) : Prop :=
  ∃ E, items f !! id = Some E ∧ live_entry E.

(** The two tests as functions of the state. *)
Definition is_live (f : HistoricalFIFO) (id : string) : bool :=
  match items f !! id with
  | Some E => negb (Is E DELETE_or_POP)
  | None => false
  end.

Definition is_stale (f : HistoricalFIFO) (id : string) : bool :=
  match items f !! id with
  | Some E => Is E DELETE_or_POP
  | None => false
  end.

(** The pending sequence holds no live key twice. *)
Definition at_most_one_pending (f : HistoricalFIFO) : Prop :=
  ∀ id, live f id → (length (filter (λ k, k = id) (queue f)) ≤ 1)%nat.

(** The key has nothing to show to [Get], [List] and [ContainedIDs]. *)
Definition hidden (f : HistoricalFIFO) (id : string) : Prop :=
  ∀ E, items f !! id = Some E → Is E DELETE_or_POP = true.

(** [merge] has nothing to store for [v] under [id]: the key holds an
    entry tagged Delete or Pop whose value is deep-equal to [v]. *)
Definition unchanged_hidden (f : HistoricalFIFO) (id : string) (v : V) : bool :=
  match items f !! id with
  | Some E => Is E DELETE_or_POP && DeepEqual v (Value E)
  | None => false
  end.

(** The comment on the field [items]: the keys of the queue are keys of
    the map. *)
Definition pending_in_store (f : HistoricalFIFO) : Prop :=
  ∀ k, k ∈ queue f → is_Some (items f !! k).

(** The entry that [Pop] stores and hands to the carrier. *)
Definition popped (E : Entry) : Entry := PlainEntry (mkEntry (Value E) POP_EVENT).



(** The calls that the claim about popped entries names: an [Add],
    [Update] or [Readd] of [id], or a [Replace]. *)
Definition adds_or_replaces (op : Op) (id : string) : bool :=
  match op with
  | OpAdd k _ | OpUpdate k _ | OpReadd k _ _ => bool_decide (k = id)
  | OpReplace _ => true
  | OpDelete _ | OpPop => false
  end.

#[global] Instance well_tagged_dec (E : Entry) : Decision (well_tagged E).
Proof. destruct E; cbn; apply _. Defined.

#[global] Instance tags_ok_dec (its : gmap string Entry) : Decision (tags_ok its).
Proof. unfold tags_ok. apply _. Defined.

#[global] Instance wf_dec (f : HistoricalFIFO) : Decision (wf f).
Proof. unfold wf. apply _. Defined.

End Queue.

Arguments entry V : clear implicits.
Arguments deletedEntry V : clear implicits.
Arguments Entry V : clear implicits.
Arguments HistoricalFIFO V : clear implicits.
Arguments PopOutcome V : clear implicits.
Arguments Op V : clear implicits.

(** ** A value type and a range order to run the model on *)

(** A value with an identifier and a payload, as the package's callers
    store (a pod: its UID and the rest of it). *)
Record pod : Type := mkPod { pod_uid : string; pod_data : Z }.

#[global] Instance pod_eq_dec : EqDecision pod.
Proof. solve_decision. Defined.

Definition pod_DeepEqual (a b : pod) : bool := bool_decide (a = b).

Lemma pod_DeepEqual_spec (a b : pod) : pod_DeepEqual a b = true ↔ a = b.
Proof. apply bool_decide_eq_true. Qed.

Definition pod_UniqueCopyable : UniqueCopyable pod :=
  {| Copy := λ p, p;
     GetUID := pod_uid;
     DeepEqual := pod_DeepEqual;
     DeepEqual_spec := pod_DeepEqual_spec;
     Copy_spec := λ p, eq_refl |}.

(** One admissible order: the one of [map_to_list]. *)
Definition map_to_list_range : MapRange :=
  {| range := λ A m, map_to_list m;
     range_perm := λ A m, reflexivity (map_to_list m) |}.

(** ** States to run the model from *)

Section Scenarios.
#[local] Existing Instance pod_UniqueCopyable.
#[local] Existing Instance map_to_list_range.

Definition state_of (r : result (HistoricalFIFO pod)) : HistoricalFIFO pod :=
  match r with
  | Ok f => f
  | Panic => NewFIFO
  end.

Definition run (calls : list (Op pod * Time)) : HistoricalFIFO pod :=
  state_of (exec NewFIFO calls).

Definition pod1 : pod := mkPod "uid-1" 1.
Definition pod1' : pod := mkPod "uid-1" 2.
Definition pod2 : pod := mkPod "uid-2" 2.

(** [K] was added. *)
Definition calls_added : list (Op pod * Time) := [(OpAdd "K" pod1, 10)].
(** [K] was added and deleted. *)
Definition calls_deleted : list (Op pod * Time) :=
  [(OpAdd "K" pod1, 10); (OpDelete "K", 20)].
(** [K] was added and popped. *)
Definition calls_popped : list (Op pod * Time) :=
  [(OpAdd "K" pod1, 10); (OpPop, 20)].
(** [K] was added, deleted, and added again with another value. *)
Definition calls_revived : list (Op pod * Time) :=
  [(OpAdd "K" pod1, 10); (OpDelete "K", 20); (OpAdd "K" pod1', 30)].
(** [K] was added and deleted, and 254 more merges have brought the
    counter to 255. *)
Definition calls_before_sweep : list (Op pod * Time) :=
  calls_deleted ++ replicate 254 (OpAdd "J" pod2, 30).
(** A time after the tombstone of [K] made at 20 has expired. *)
Definition much_later : Time := 20 + five_minutes + 1.

(** The map [{A:1, B:2}] and the map [{B:3, C:4}] of the example of
    [Replace], with one identifier per key. *)
Definition calls_AB : list (Op pod * Time) :=
  [(OpAdd "A" (mkPod "uid-a" 1), 10); (OpAdd "B" (mkPod "uid-b" 2), 11)].
Definition newState_BC : gmap string pod :=
  {[ "B" := mkPod "uid-b" 3; "C" := mkPod "uid-c" 4 ]}.

End Scenarios.

(** * Properties *)

Section Properties.
Context {V : Type} `{UC : UniqueCopyable V} `{MR : MapRange}.
Implicit Types (f g : HistoricalFIFO V) (E : Entry V) (id k : string) (v obj : V).
Implicit Types (now : Time) (its : gmap string (Entry V)) (q : list string).

(** ** Event tags *)

Lemma Is_DELETE_Tombstone E :
  well_tagged E → Is E DELETE_EVENT = true → ∃ d, E = Tombstone d.
Proof.
  destruct E as [e|d]; [|by eauto].
  intros [Hev|[Hev|Hev]]; cbn; unfold entry_Is; rewrite Hev; done.
Qed.

Lemma Is_DELETE_Plain E :
  well_tagged E → Is E DELETE_EVENT = false → ∃ e, E = PlainEntry e.
Proof.
  destruct E as [e|d]; [by eauto|].
  cbn. unfold entry_Is. intros ->. done.
Qed.

Lemma Plain_not_DELETE (e : entry V) :
  well_tagged (PlainEntry e) → Is (PlainEntry e) DELETE_EVENT = false.
Proof. cbn. unfold entry_Is. by intros [->|[->| ->]]. Qed.

Lemma Tombstone_Is_DELETE (d : deletedEntry V) :
  well_tagged (Tombstone d) → Is (Tombstone d) DELETE_EVENT = true.
Proof. cbn. unfold entry_Is. by intros ->. Qed.

Lemma Tombstone_Is_DELETE_or_POP (d : deletedEntry V) :
  well_tagged (Tombstone d) → Is (Tombstone d) DELETE_or_POP = true.
Proof. cbn. unfold entry_Is. by intros ->. Qed.

Lemma Is_DELETE_weaken E :
  Is E DELETE_EVENT = true → Is E DELETE_or_POP = true.
Proof.
  assert (∀ e : Z, Z.land DELETE_EVENT e ≠ 0 → Z.land DELETE_or_POP e ≠ 0) as Hbits.
  { intros e Hne H0. apply Hne. apply Z.bits_inj_iff'. intros n Hn.
    apply (f_equal (λ z, Z.testbit z n)) in H0.
    rewrite Z.land_spec in H0. rewrite Z.land_spec, Z.bits_0.
    rewrite Z.bits_0 in H0.
    unfold DELETE_or_POP in H0. rewrite Z.lor_spec in H0.
    destruct (Z.testbit DELETE_EVENT n), (Z.testbit e n); done. }
  destruct E as [e|d]; cbn; unfold entry_Is;
    rewrite !negb_true_iff, !Z.eqb_neq; apply Hbits.
Qed.

Lemma live_entry_not_DELETE E : live_entry E → Is E DELETE_EVENT = false.
Proof.
  unfold live_entry. intros Hl.
  destruct (Is E DELETE_EVENT) eqn:Hd; [|done].
  apply Is_DELETE_weaken in Hd. congruence.
Qed.

Lemma popped_Is_DELETE_or_POP v :
  Is (PlainEntry (mkEntry v POP_EVENT)) DELETE_or_POP = true.
Proof. done. Qed.

Lemma expired_Is_DELETE now E : expired now E = true → Is E DELETE_EVENT = true.
Proof. destruct E as [e|d]; cbn; [done|]. by intros [? _]%andb_true_iff. Qed.

Lemma not_DELETE_not_expired now E : Is E DELETE_EVENT = false → expired now E = false.
Proof.
  intros Hd. destruct (expired now E) eqn:He; [|done].
  apply expired_Is_DELETE in He. congruence.
Qed.

(** ** The range over a map *)

Lemma range_elem_of {A : Type} (m : gmap string A) k (x : A) :
  (k, x) ∈ range m ↔ m !! k = Some x.
Proof. rewrite (range_perm A m). apply elem_of_map_to_list. Qed.

Lemma range_NoDup {A : Type} (m : gmap string A) : NoDup (range m).*1.
Proof. rewrite (range_perm A m). apply NoDup_fst_map_to_list. Qed.

(** ** Garbage collection *)

Lemma gc_requeue_filter (D : gset string) (old q : list string) :
  gc_requeue D old q = q ++ filter (λ k, k ∉ D) old.
Proof.
  revert q. induction old as [|k old IH]; intros q; cbn [gc_requeue].
  - by rewrite filter_nil, app_nil_r.
  - case_decide as Hk.
    + rewrite IH. by rewrite filter_cons_False by (intros Hn; by apply Hn).
    + rewrite IH, filter_cons_True by done. by rewrite <- app_assoc.
Qed.

Lemma visited_dec (P : string → Entry V → bool) (l : list (string * Entry V)) k :
  {∃ E, (k, E) ∈ l ∧ P k E = true} + {¬ ∃ E, (k, E) ∈ l ∧ P k E = true}.
Proof.
  destruct (decide (Exists (λ kE : string * Entry V,
                              kE.1 = k ∧ P kE.1 kE.2 = true) l)) as [Hex|Hex];
    [left|right]; rewrite Exists_exists in Hex.
  - destruct Hex as ([k' E] & Hin & Hk & He). cbn in *. subst. by eauto.
  - intros (E & Hin & He). apply Hex. by exists (k, E).
Qed.

Lemma gc_scan_spec now (l : list (string * Entry V)) its (D : gset string) :
  (∀ k E, (k, E) ∈ l → well_tagged E) →
  ∃ its' D', gc_scan now l (its, D) = Ok (its', D')
    ∧ (∀ k, (∃ E, (k, E) ∈ l ∧ expired now E = true) → its' !! k = None)
    ∧ (∀ k, ¬ (∃ E, (k, E) ∈ l ∧ expired now E = true) → its' !! k = its !! k)
    ∧ (∀ k, k ∈ D' ↔ k ∈ D ∨ ∃ E, (k, E) ∈ l ∧ expired now E = true).
Proof.
  revert its D. induction l as [|[k0 E0] l IH]; intros its D Htag.
  - exists its, D. cbn. split_and!; [done| |done|].
    + intros k (E & HE & _). by apply elem_of_nil in HE.
    + intros k. split; [by left|]. intros [?|(E & HE & _)]; [done|].
      by apply elem_of_nil in HE.
  - assert (well_tagged E0) as Htag0 by (apply (Htag k0); left).
    assert (∀ k E, (k, E) ∈ l → well_tagged E) as Htagl
      by (intros k E HE; apply (Htag k); by right).
    cbn [gc_scan gc_visit].
    destruct (Is E0 DELETE_EVENT) eqn:Hdel.
    + destruct (Is_DELETE_Tombstone E0 Htag0 Hdel) as [d ->].
      destruct (expiration d <? now) eqn:Hexp.
      * assert (expired now (Tombstone d) = true) as Hexpd
          by (cbn; cbn in Hdel; by rewrite Hdel, Hexp).
        destruct (IH (delete k0 its) ({[k0]} ∪ D) Htagl)
          as (its' & D' & Hrun & Hnone & Hsame & HD).
        exists its', D'. cbn. split_and!; [done| | |].
        -- intros k (E & HE & HEexp).
           apply elem_of_cons in HE as [[= -> ->]|HE]; [|by eauto].
           destruct (visited_dec (λ _, expired now) l k0) as [Hin|Hnin];
             [by apply Hnone|].
           rewrite (Hsame _ Hnin). apply lookup_delete_eq.
        -- intros k Hnot. rewrite Hsame.
           ++ apply lookup_delete_ne. intros <-. apply Hnot.
              exists (Tombstone d). split; [left|done].
           ++ intros (E & HE & HEexp). apply Hnot. exists E. split; [by right|done].
        -- intros k. rewrite HD. split.
           ++ intros [[->%elem_of_singleton|?]%elem_of_union|(E & HE & HEexp)].
              ** right. exists (Tombstone d). split; [left|done].
              ** by left.
              ** right. exists E. split; [by right|done].
           ++ intros [?|(E & HE & HEexp)];
                [left; apply elem_of_union; by right|].
              apply elem_of_cons in HE as [[= -> ->]|HE];
                [left; apply elem_of_union; left; by apply elem_of_singleton|].
              right. by eauto.
      * assert (expired now (Tombstone d) = false) as Hexpd
          by (cbn; by rewrite Hexp, andb_false_r).
        destruct (IH its D Htagl) as (its' & D' & Hrun & Hnone & Hsame & HD).
        exists its', D'. cbn. split_and!; [done| | |].
        -- intros k (E & HE & HEexp).
           apply elem_of_cons in HE as [[= -> ->]|HE]; [congruence|by eauto].
        -- intros k Hnot. apply Hsame. intros (E & HE & HEexp). apply Hnot.
           exists E. split; [by right|done].
        -- intros k. rewrite HD. split.
           ++ intros [?|(E & HE & HEexp)]; [by left|]. right. exists E.
              split; [by right|done].
           ++ intros [?|(E & HE & HEexp)]; [by left|].
              apply elem_of_cons in HE as [[= -> ->]|HE]; [congruence|by eauto].
    + pose proof (not_DELETE_not_expired now E0 Hdel) as Hexp0.
      destruct (IH its D Htagl) as (its' & D' & Hrun & Hnone & Hsame & HD).
      exists its', D'. cbn. split_and!; [done| | |].
      * intros k (E & HE & HEexp).
        apply elem_of_cons in HE as [[= -> ->]|HE]; [congruence|by eauto].
      * intros k Hnot. apply Hsame. intros (E & HE & HEexp). apply Hnot.
        exists E. split; [by right|done].
      * intros k. rewrite HD. split.
        -- intros [?|(E & HE & HEexp)]; [by left|]. right. exists E.
           split; [by right|done].
        -- intros [?|(E & HE & HEexp)]; [by left|].
           apply elem_of_cons in HE as [[= -> ->]|HE]; [congruence|by eauto].
Qed.

Lemma elem_of_reclaimed now its k :
  k ∈ reclaimed now its ↔ ∃ E, its !! k = Some E ∧ expired now E = true.
Proof.
  unfold reclaimed. rewrite elem_of_dom. unfold is_Some.
  setoid_rewrite map_lookup_filter_Some. naive_solver.
Qed.

Lemma lookup_swept now its k :
  swept now its !! k =
    match its !! k with
    | Some E => if expired now E then None else Some E
    | None => None
    end.
Proof.
  unfold swept. destruct (its !! k) as [E|] eqn:Hk.
  - destruct (expired now E) eqn:He.
    + apply map_lookup_filter_None. right. intros E' HE'. cbn.
      rewrite Hk in HE'. injection HE' as <-. congruence.
    + by apply map_lookup_filter_Some.
  - apply map_lookup_filter_None. by left.
Qed.

(** The sweep, as a function of the state it starts from. *)
Lemma gc_spec f now :
  tags_ok (items f) →
  gc f now =
    Ok (mkFIFO (swept now (items f))
               (filter (λ k, k ∉ reclaimed now (items f)) (queue f))
               (gcc f) (lingerTTL f)).
Proof.
  intros Htag. unfold gc.
  destruct (gc_scan_spec now (range (items f)) (items f) ∅)
    as (its' & D' & -> & Hnone & Hsame & HD).
  { intros k E HE%range_elem_of. by apply (Htag k). }
  cbn. rewrite gc_requeue_filter. cbn.
  assert (D' = reclaimed now (items f)) as ->.
  { apply set_eq. intros k. rewrite HD, elem_of_reclaimed.
    setoid_rewrite range_elem_of. split; [|by right].
    intros [Hemp|?]; [|done]. by apply not_elem_of_empty in Hemp. }
  assert (its' = swept now (items f)) as ->; [|done].
  apply map_eq. intros k. rewrite lookup_swept.
  destruct (items f !! k) as [E|] eqn:Hk.
  - destruct (expired now E) eqn:He.
    + apply Hnone. exists E. by rewrite range_elem_of.
    + rewrite Hsame; [done|]. intros (E' & HE'%range_elem_of & He').
      congruence.
  - rewrite Hsame; [done|]. intros (E' & HE'%range_elem_of & He'). congruence.
Qed.

(** ** Well-formed states *)

Lemma tags_ok_swept now its : tags_ok its → tags_ok (swept now its).
Proof.
  intros Htag k E. rewrite lookup_swept.
  destruct (its !! k) as [E'|] eqn:Hk; [|done].
  destruct (expired now E'); [done|]. intros [= <-]. by apply (Htag k).
Qed.

Lemma tags_ok_insert its k E : tags_ok its → well_tagged E → tags_ok (<[k := E]> its).
Proof. intros Htag HE. by apply map_Forall_insert_2. Qed.

Lemma wf_NewFIFO : wf (NewFIFO (V := V)).
Proof.
  split_and!; cbn; [apply map_Forall_empty|done|done|done].
Qed.

(** ** Merge *)

Lemma int_wrap_small (z : Z) : 0 ≤ z ≤ 256 → int_wrap z = z.
Proof.
  intros Hz. unfold int_wrap. rewrite Z.mod_small; [lia|].
  split; [lia|]. change (2 ^ 64) with (2 ^ 63 + 2 ^ 63).
  assert (256 < 2 ^ 63) by done. lia.
Qed.

Lemma merge_gc_spec f now :
  tags_ok (items f) → 0 ≤ gcc f < 256 →
  merge_gc f now =
    if decide (gcc f = 255)
    then Ok (mkFIFO (swept now (items f))
                    (filter (λ k, k ∉ reclaimed now (items f)) (queue f))
                    0 (lingerTTL f))
    else Ok (with_gcc f (gcc f + 1)).
Proof.
  intros Htag Hg. unfold merge_gc. cbn.
  rewrite int_wrap_small by lia.
  rewrite Z.rem_mod_nonneg by lia.
  case_decide as H255.
  - rewrite H255. cbn. rewrite gc_spec by done. done.
  - rewrite Z.mod_small by lia.
    destruct (gcc f + 1 =? 0) eqn:H0; [lia|done].
Qed.

(** What [merge] stores and notifies, case by case. *)
Lemma merge_items_absent f id obj now :
  items f !! id = None →
  merge_items f id obj now =
    Ok (<[id := PlainEntry (mkEntry (Copy obj) ADD_EVENT)]> (items f),
        [PlainEntry (mkEntry (Copy obj) ADD_EVENT)]).
Proof. intros Hid. unfold merge_items. by rewrite Hid. Qed.

Lemma merge_items_hidden_delete f id obj now (ent : entry V) :
  items f !! id = Some (PlainEntry ent) →
  Is (PlainEntry ent) DELETE_EVENT = false →
  GetUID (value ent) ≠ GetUID obj →
  merge_items f id obj now =
    Ok (<[id := PlainEntry (mkEntry (Copy obj) ADD_EVENT)]> (items f),
        [Tombstone (mkDeletedEntry (set_event ent DELETE_EVENT) (now + lingerTTL f));
         PlainEntry (mkEntry (Copy obj) ADD_EVENT)]).
Proof.
  intros Hid Hdel Huid. unfold merge_items. rewrite Hid, Hdel. cbn [negb andb Value].
  by rewrite bool_decide_eq_true_2.
Qed.

Lemma merge_items_update f id obj now E :
  items f !! id = Some E →
  Is E DELETE_EVENT = true ∨ GetUID (Value E) = GetUID obj →
  DeepEqual obj (Value E) = false →
  merge_items f id obj now =
    Ok (<[id := PlainEntry (mkEntry (Copy obj) UPDATE_EVENT)]> (items f),
        [PlainEntry (mkEntry (Copy obj) UPDATE_EVENT)]).
Proof.
  intros Hid Hcond Hneq. unfold merge_items. rewrite Hid, Hneq.
  destruct Hcond as [->|Huid]; [done|].
  rewrite bool_decide_eq_false_2 by (by intros Hn; apply Hn).
  by rewrite andb_false_r.
Qed.

Lemma merge_items_unchanged f id obj now E :
  items f !! id = Some E →
  Is E DELETE_EVENT = true ∨ GetUID (Value E) = GetUID obj →
  DeepEqual obj (Value E) = true →
  merge_items f id obj now = Ok (items f, []).
Proof.
  intros Hid Hcond Heq. unfold merge_items. rewrite Hid, Heq.
  destruct Hcond as [->|Huid]; [done|].
  rewrite bool_decide_eq_false_2 by (by intros Hn; apply Hn).
  by rewrite andb_false_r.
Qed.

(** On a well-tagged map the type assertion of [merge] does not fail; the
    map it leaves is well tagged, differs from the old one at [id] only, and
    holds at [id] an entry that is not a tombstone unless the old one was
    and is kept. *)
Lemma merge_items_ok f id obj now :
  tags_ok (items f) →
  ∃ its n, merge_items f id obj now = Ok (its, n)
    ∧ tags_ok its
    ∧ (∀ k, k ≠ id → its !! k = items f !! k)
    ∧ (its !! id = items f !! id ∧ is_Some (items f !! id) ∧ n = []
       ∨ ∃ e, its !! id = Some (PlainEntry e)
              ∧ Is (PlainEntry e) DELETE_or_POP = false
              ∧ n ≠ []).
Proof.
  intros Htag.
  assert (∀ t, t = ADD_EVENT ∨ t = UPDATE_EVENT →
            well_tagged (PlainEntry (mkEntry (Copy obj) t))
            ∧ Is (PlainEntry (mkEntry (Copy obj) t)) DELETE_or_POP = false) as Hnew.
  { intros t [->| ->]; split; cbn; auto. }
  destruct (items f !! id) as [E|] eqn:Hid.
  - pose proof (Htag id E Hid) as HE.
    destruct (Is E DELETE_EVENT) eqn:Hdel.
    + destruct (DeepEqual obj (Value E)) eqn:Heq.
      * rewrite (merge_items_unchanged f id obj now E) by auto.
        exists (items f), []. split_and!; [done|done|done|]. left. by rewrite Hid.
      * rewrite (merge_items_update f id obj now E) by auto.
        eexists _, _. split_and!; [done| | |].
        -- apply tags_ok_insert; [done|]. apply Hnew. auto.
        -- intros k Hk. by rewrite lookup_insert_ne.
        -- right. eexists. rewrite lookup_insert_eq. split_and!; [done| |done].
           apply Hnew. auto.
    + destruct (Is_DELETE_Plain E HE Hdel) as [ent ->].
      destruct (decide (GetUID (value ent) = GetUID obj)) as [Huid|Huid].
      * destruct (DeepEqual obj (value ent)) eqn:Heq.
        -- rewrite (merge_items_unchanged f id obj now (PlainEntry ent)) by auto.
           exists (items f), []. split_and!; [done|done|done|]. left.
           by rewrite Hid.
        -- rewrite (merge_items_update f id obj now (PlainEntry ent)) by auto.
           eexists _, _. split_and!; [done| | |].
           ++ apply tags_ok_insert; [done|]. apply Hnew. auto.
           ++ intros k Hk. by rewrite lookup_insert_ne.
           ++ right. eexists. rewrite lookup_insert_eq. split_and!; [done| |done].
              apply Hnew. auto.
      * rewrite (merge_items_hidden_delete f id obj now ent) by auto.
        eexists _, _. split_and!; [done| | |].
        -- apply tags_ok_insert; [done|]. apply Hnew. auto.
        -- intros k Hk. by rewrite lookup_insert_ne.
        -- right. eexists. rewrite lookup_insert_eq. split_and!; [done| |done].
           apply Hnew. auto.
  - rewrite merge_items_absent by done.
    eexists _, _. split_and!; [done| | |].
    + apply tags_ok_insert; [done|]. apply Hnew. auto.
    + intros k Hk. by rewrite lookup_insert_ne.
    + right. eexists. rewrite lookup_insert_eq. split_and!; [done| |done].
      apply Hnew. auto.
Qed.

(** [merge] is [merge_items] followed by the counter and, on the 256th
    call, by the sweep. *)
Lemma merge_spec f id obj now :
  wf f →
  ∃ its n, merge_items f id obj now = Ok (its, n)
    ∧ merge f id obj now =
        Ok (if decide (gcc f = 255)
            then mkFIFO (swept now its)
                        (filter (λ k, k ∉ reclaimed now its) (queue f))
                        0 (lingerTTL f)
            else mkFIFO its (queue f) (gcc f + 1) (lingerTTL f),
            n).
Proof.
  intros (Htag & Hg & Httl).
  destruct (merge_items_ok f id obj now Htag) as (its & n & Hits & Htag' & _).
  exists its, n. split; [done|]. unfold merge. rewrite Hits. cbn.
  rewrite merge_gc_spec by done. cbn. by case_decide.
Qed.

Lemma merge_wf f id obj now f' n :
  wf f → merge f id obj now = Ok (f', n) → wf f'.
Proof.
  intros Hwf Hm.
  destruct (merge_spec f id obj now Hwf) as (its & n' & Hits & Hm').
  destruct Hwf as (Htag & Hg & Httl).
  destruct (merge_items_ok f id obj now Htag) as (its2 & n2 & Hits2 & Htag2 & _).
  rewrite Hits in Hits2. injection Hits2 as <- <-.
  rewrite Hm in Hm'. injection Hm' as -> ->.
  case_decide; split_and!; cbn; try done; try lia.
  by apply tags_ok_swept.
Qed.

(** ** The methods keep the state well formed *)

Lemma wf_with_queue f q : wf f → wf (with_queue f q).
Proof. by intros (? & ? & ?). Qed.

Lemma is_live_true f id : is_live f id = true ↔ live f id.
Proof.
  unfold is_live, live, live_entry. destruct (items f !! id) as [E|].
  - rewrite negb_true_iff. split; [by eauto|]. by intros (? & [= <-] & ?).
  - split; [done|]. by intros (? & ? & ?).
Qed.

Lemma is_live_false f id : is_live f id = false ↔ hidden f id.
Proof.
  unfold is_live, hidden. destruct (items f !! id) as [E|].
  - rewrite negb_false_iff. split; [by intros ? ? [= <-]|]. by intros HE; apply HE.
  - split; [done|]. done.
Qed.

Lemma Add_merge f id v now :
  Add f id v now =
    merge (with_queue f (if is_live f id then queue f else queue f ++ [id]))
          id v now.
Proof.
  unfold Add, is_live. destruct (items f !! id) as [E|] eqn:Hid; [|done].
  destruct (Is E DELETE_or_POP) eqn:HE; [done|by destruct f].
Qed.

Lemma Add_wf f id v now f' n : wf f → Add f id v now = Ok (f', n) → wf f'.
Proof.
  rewrite Add_merge. intros Hwf. apply merge_wf. by apply wf_with_queue.
Qed.

Lemma Add_ok f id v now : wf f → ∃ f' n, Add f id v now = Ok (f', n).
Proof.
  rewrite Add_merge. intros Hwf.
  destruct (merge_spec (with_queue f (if is_live f id then queue f
                                      else queue f ++ [id])) id v now)
    as (its & n & _ & ->); [by apply wf_with_queue|]. by eauto.
Qed.

Lemma Readd_cases f id v t now :
  Readd f id v t now = Ok (f, []) ∧ (∃ E, items f !! id = Some E ∧ Is E t = false)
  ∨ Readd f id v t now =
      merge (with_queue f (if is_stale f id then queue f ++ [id] else queue f))
            id v now
    ∧ (∀ E, items f !! id = Some E → Is E t = true).
Proof.
  unfold Readd, is_stale. destruct (items f !! id) as [E|] eqn:Hid.
  - destruct (Is E t) eqn:Ht; cbn [negb].
    + right. split; [|by intros ? [= <-]].
      destruct (Is E DELETE_or_POP) eqn:HE; [done|by destruct f].
    + left. split; [done|]. by eauto.
  - right. split; [|done]. by destruct f.
Qed.

Lemma Readd_wf f id v t now f' n : wf f → Readd f id v t now = Ok (f', n) → wf f'.
Proof.
  intros Hwf. destruct (Readd_cases f id v t now) as [[-> _]|[-> _]].
  - by intros [= <- <-].
  - apply merge_wf. by apply wf_with_queue.
Qed.

Lemma Readd_ok f id v t now : wf f → ∃ f' n, Readd f id v t now = Ok (f', n).
Proof.
  intros Hwf. destruct (Readd_cases f id v t now) as [[-> _]|[-> _]]; [by eauto|].
  match goal with |- context [merge ?g _ _ _] =>
    destruct (merge_spec g id v now) as (its & n & _ & ->);
      [by apply wf_with_queue|by eauto]
  end.
Qed.

Lemma Delete_spec f id now :
  tags_ok (items f) →
  Delete f id now =
    match items f !! id with
    | Some (PlainEntry e) =>
        let t := Tombstone (mkDeletedEntry (set_event e DELETE_EVENT)
                                           (now + lingerTTL f)) in
        Ok (with_items f (<[id := t]> (items f)), Some t)
    | _ => Ok (f, None)
    end.
Proof.
  intros Htag. unfold Delete. destruct (items f !! id) as [E|] eqn:Hid; [|done].
  pose proof (Htag id E Hid) as HE. destruct E as [e|d].
  - by rewrite Plain_not_DELETE.
  - by rewrite Tombstone_Is_DELETE.
Qed.

Lemma Delete_wf f id now f' n : wf f → Delete f id now = Ok (f', n) → wf f'.
Proof.
  intros (Htag & Hg & Httl). rewrite Delete_spec by done.
  destruct (items f !! id) as [[e|d]|]; intros [= <- <-]; [|done|done].
  split_and!; cbn; [by apply tags_ok_insert|lia..].
Qed.

Lemma Pop_loop_tags its q its' q' out :
  tags_ok its → Pop_loop its q = (its', q', out) → tags_ok its'.
Proof.
  revert its' q' out. induction q as [|id q IH]; intros its' q' out Htag; cbn.
  - by intros [= <- <- <-].
  - destruct (its !! id) as [item|]; [|by apply IH].
    destruct (Is item DELETE_or_POP); [by apply IH|].
    intros [= <- <- <-]. apply tags_ok_insert; [done|]. cbn. auto.
Qed.

Lemma Pop_wf f f' out : wf f → Pop f = (f', out) → wf f'.
Proof.
  intros (Htag & Hg & Httl). unfold Pop.
  destruct (Pop_loop (items f) (queue f)) as [[its q] o] eqn:Hloop.
  intros [= <- <-]. split_and!; cbn; [by eapply Pop_loop_tags|lia..].
Qed.

(** ** Replace *)

Lemma Replace_scan_spec (m : gmap string V) (expires : Time)
    (l : list (string * Entry V)) its (ns : list (Entry V)) :
  NoDup l.*1 →
  (∀ k E, (k, E) ∈ l → well_tagged E) →
  ∃ its', Replace_scan m expires l (its, ns) = Ok (its', ns ++ tombstones m expires l)
    ∧ (∀ k E, (k, E) ∈ l → doomed m k E = true →
         its' !! k = Some (tombstone_of expires E))
    ∧ (∀ k, ¬ (∃ E, (k, E) ∈ l ∧ doomed m k E = true) → its' !! k = its !! k).
Proof.
  revert its ns. induction l as [|[k0 E0] l IH]; intros its ns Hnd Htag.
  - exists its. cbn. rewrite app_nil_r. split_and!; [done| |done].
    intros k E HE. by apply elem_of_nil in HE.
  - apply NoDup_cons in Hnd as [Hk0 Hnd]. cbn in Hk0.
    assert (well_tagged E0) as Htag0 by (apply (Htag k0); left).
    assert (∀ k E, (k, E) ∈ l → well_tagged E) as Htagl
      by (intros k E HE; apply (Htag k); by right).
    assert (∀ E, (k0, E) ∉ l) as Hfresh.
    { intros E HE. apply Hk0. apply list_elem_of_fmap. by exists (k0, E). }
    cbn [Replace_scan]. unfold tombstones. rewrite filter_cons. cbn [fst snd].
    destruct (doomed m k0 E0) eqn:Hdoom.
    + rewrite decide_True by done. rewrite fmap_cons. cbn [snd].
      unfold doomed in Hdoom. apply andb_true_iff in Hdoom as [Hm Hdel].
      apply bool_decide_eq_true in Hm. apply negb_true_iff in Hdel.
      destruct (Is_DELETE_Plain E0 Htag0 Hdel) as [ent ->].
      unfold Replace_visit. rewrite Hm, Hdel. cbn [negb fst snd].
      destruct (IH (<[k0 := tombstone_of expires (PlainEntry ent)]> its)
                   (ns ++ [tombstone_of expires (PlainEntry ent)]) Hnd Htagl)
        as (its' & Hrun & Hdoomed & Hsame).
      exists its'. split_and!.
      * cbn. unfold tombstone_of, entry_part in Hrun. cbn in Hrun. rewrite Hrun.
        unfold tombstones. by rewrite <- app_assoc.
      * intros k E HE HD. apply elem_of_cons in HE as [[= -> ->]|HE]; [|by eauto].
        rewrite Hsame; [apply lookup_insert_eq|].
        intros (E' & HE' & _). by apply (Hfresh E').
      * intros k Hnot. rewrite Hsame.
        -- apply lookup_insert_ne. intros <-. apply Hnot.
           exists (PlainEntry ent). split; [left|].
           unfold doomed. by rewrite Hdel, bool_decide_eq_true_2.
        -- intros (E & HE & HD). apply Hnot. exists E. split; [by right|done].
    + rewrite decide_False by (cbn; congruence).
      assert (Replace_visit m expires (its, ns) (k0, E0) = Ok (its, ns)) as Hvisit.
      { unfold Replace_visit. unfold doomed in Hdoom.
        destruct (m !! k0) as [x|]; [done|].
        rewrite bool_decide_eq_true_2 in Hdoom by done. cbn in Hdoom.
        by rewrite Hdoom. }
      rewrite Hvisit. cbn.
      destruct (IH its ns Hnd Htagl) as (its' & Hrun & Hdoomed & Hsame).
      exists its'. split_and!; [done| |].
      * intros k E HE HD. apply elem_of_cons in HE as [[= -> ->]|HE];
          [congruence|by eauto].
      * intros k Hnot. apply Hsame. intros (E & HE & HD). apply Hnot.
        exists E. split; [by right|done].
Qed.

(** The map that the first loop of [Replace] leaves. *)
Lemma Replace_scan_items f (m : gmap string V) (expires : Time) :
  tags_ok (items f) →
  ∃ its', Replace_scan m expires (range (items f)) (items f, []) =
            Ok (its', tombstones m expires (range (items f)))
    ∧ tags_ok its'
    ∧ ∀ k, its' !! k =
        match items f !! k with
        | Some E => Some (if doomed m k E then tombstone_of expires E else E)
        | None => None
        end.
Proof.
  intros Htag.
  destruct (Replace_scan_spec m expires (range (items f)) (items f) [])
    as (its' & Hrun & Hdoomed & Hsame).
  { apply range_NoDup. }
  { intros k E HE%range_elem_of. by apply (Htag k). }
  assert (∀ k, its' !! k =
        match items f !! k with
        | Some E => Some (if doomed m k E then tombstone_of expires E else E)
        | None => None
        end) as Hlook.
  { intros k. destruct (items f !! k) as [E|] eqn:Hk.
    - destruct (doomed m k E) eqn:HD.
      + apply Hdoomed; [by apply range_elem_of|done].
      + rewrite Hsame; [done|]. intros (E' & HE'%range_elem_of & HD'). congruence.
    - rewrite Hsame; [done|]. intros (E' & HE'%range_elem_of & HD'). congruence. }
  exists its'. split_and!; [done| |done].
  intros k E. rewrite Hlook. destruct (items f !! k) as [E'|] eqn:Hk; [|done].
  intros [= <-]. destruct (doomed m k E'); [done|]. by apply (Htag k).
Qed.

Lemma Replace_merge_ok now (l : list (string * V)) g (ns : list (Entry V)) :
  wf g → ∃ g' ns', Replace_merge now l (g, ns) = Ok (g', ns') ∧ wf g'.
Proof.
  revert g ns. induction l as [|[id obj] l IH]; intros g ns Hwf; [by eauto|].
  cbn [Replace_merge fst snd].
  pose proof (wf_with_queue g (queue g ++ [id]) Hwf) as Hwf1.
  destruct (merge_spec _ id obj now Hwf1) as (its & n & _ & Hm).
  pose proof (merge_wf _ id obj now _ _ Hwf1 Hm) as Hwf2.
  rewrite Hm. cbn. by apply IH.
Qed.

Lemma Replace_ok f (m : gmap string V) now :
  wf f → ∃ f' n, Replace f m now = Ok (f', n) ∧ wf f'.
Proof.
  intros (Htag & Hg & Httl). unfold Replace.
  destruct (Replace_scan_items (with_queue f []) m (now + lingerTTL f) Htag)
    as (its' & Hrun & Htag' & _).
  cbn in Hrun |- *. rewrite Hrun. cbn. apply Replace_merge_ok.
  unfold wf. cbn. split_and!; [done|lia..].
Qed.

(** ** Sequences of calls *)

Lemma step_ok f (op : Op V) now :
  wf f → ∃ f' delivered, step f op now = Ok (f', delivered) ∧ wf f'.
Proof.
  intros Hwf. destruct op as [id v|id v|id v t|id| |m]; cbn.
  - destruct (Add_ok f id v now Hwf) as (f' & n & Hadd). rewrite Hadd. cbn.
    eexists _, _. split; [done|]. by eapply Add_wf.
  - unfold Update.
    destruct (Add_ok f id v now Hwf) as (f' & n & Hadd). rewrite Hadd. cbn.
    eexists _, _. split; [done|]. by eapply Add_wf.
  - destruct (Readd_ok f id v t now Hwf) as (f' & n & Hadd). rewrite Hadd. cbn.
    eexists _, _. split; [done|]. by eapply Readd_wf.
  - destruct (Delete f id now) as [[f' n]|] eqn:Hdel.
    + cbn. eexists _, _. split; [done|]. by eapply Delete_wf.
    + destruct Hwf as (Htag & _). rewrite Delete_spec in Hdel by done.
      by destruct (items f !! id) as [[e|d]|].
  - destruct (Pop f) as [f' out] eqn:Hpop.
    pose proof (Pop_wf f f' out Hwf Hpop). destruct out; by eauto.
  - destruct (Replace_ok f m now Hwf) as (f' & n & Hrep & Hwf').
    rewrite Hrep. cbn. by eauto.
Qed.

Lemma exec_ok f (calls : list (Op V * Time)) :
  wf f → ∃ f', exec f calls = Ok f' ∧ wf f'.
Proof.
  revert f. induction calls as [|[op now] calls IH]; intros f Hwf; [by eauto|].
  cbn. destruct (step_ok f op now Hwf) as (f1 & d & Hstep & Hwf1).
  rewrite Hstep. cbn. by apply IH.
Qed.

(** ** What a merge leaves *)

Lemma merge_result f id obj now :
  wf f →
  ∃ its n f', merge_items f id obj now = Ok (its, n)
    ∧ merge f id obj now = Ok (f', n)
    ∧ wf f'
    ∧ lingerTTL f' = lingerTTL f
    ∧ gcc f' = (gcc f + 1) mod 256
    ∧ items f' = (if decide (gcc f = 255) then swept now its else its)
    ∧ queue f' = (if decide (gcc f = 255)
                  then filter (λ k, k ∉ reclaimed now its) (queue f)
                  else queue f).
Proof.
  intros Hwf. destruct (merge_spec f id obj now Hwf) as (its & n & Hits & Hm).
  pose proof (merge_wf f id obj now _ _ Hwf Hm) as Hwf'.
  destruct Hwf as (_ & Hg & _).
  eexists its, n, _. split_and!; [done|done|done|..]; case_decide as H255; cbn;
    try done.
  - by rewrite H255.
  - rewrite Z.mod_small; lia.
Qed.

Lemma lookup_kept now its k E (b : bool) :
  its !! k = Some E → expired now E = false →
  (if b then swept now its else its) !! k = Some E.
Proof.
  intros Hk He. destruct b; [|done]. by rewrite lookup_swept, Hk, He.
Qed.

Lemma lookup_kept_decide now its k E (P : Prop) `{!Decision P} :
  its !! k = Some E → expired now E = false →
  (if decide P then swept now its else its) !! k = Some E.
Proof.
  intros Hk He. case_decide; [|done]. by rewrite lookup_swept, Hk, He.
Qed.

(** ** Pop *)


Lemma Pop_empty g : queue g = [] → Pop g = (g, Waiting).
Proof. unfold Pop. intros Hq. rewrite Hq. cbn. destruct g. by cbn in Hq; subst. Qed.

(** ** Frames: what a call leaves of the other keys *)

Lemma merge_frame f id obj now f' n k :
  wf f → merge f id obj now = Ok (f', n) → k ≠ id →
  kept_or_reclaimed now (items f) (items f') k.
Proof.
  intros Hwf Hm Hk.
  destruct (merge_result f id obj now Hwf)
    as (its & n' & f'' & Hits & Hm' & _ & _ & _ & Hitems & _).
  rewrite Hm in Hm'. injection Hm' as <- <-.
  destruct Hwf as (Htag & _).
  destruct (merge_items_ok f id obj now Htag) as (its2 & n2 & Hits2 & _ & Hframe & _).
  rewrite Hits in Hits2. injection Hits2 as <- <-.
  unfold kept_or_reclaimed. rewrite Hitems. case_decide; [|left; by apply Hframe].
  rewrite lookup_swept, (Hframe k Hk).
  destruct (items f !! k) as [E|]; [|by left].
  destruct (expired now E) eqn:He; [right; by eauto|by left].
Qed.

Lemma kept_or_reclaimed_trans now its1 its2 its3 k :
  kept_or_reclaimed now its1 its2 k → kept_or_reclaimed now its2 its3 k →
  kept_or_reclaimed now its1 its3 k.
Proof.
  unfold kept_or_reclaimed.
  intros [H12|[H12 HE]] [H23|[H23 (E & HE2 & He)]].
  - left. congruence.
  - right. split; [done|]. exists E. by rewrite <- H12.
  - right. split; [congruence|done].
  - congruence.
Qed.

Lemma kept_or_reclaimed_live now its its' k E :
  kept_or_reclaimed now its its' k → its !! k = Some E →
  Is E DELETE_EVENT = false → its' !! k = Some E.
Proof.
  intros [Hk|[_ (E' & HE' & He)]] HE Hdel; [congruence|].
  rewrite HE in HE'. injection HE' as <-.
  by rewrite not_DELETE_not_expired in He.
Qed.

Lemma kept_or_reclaimed_hidden now f f' k :
  kept_or_reclaimed now (items f) (items f') k → hidden f k → hidden f' k.
Proof.
  unfold hidden. intros [Hk|[Hk _]] Hh E; rewrite Hk; [apply Hh|done].
Qed.

Lemma Replace_merge_frame now (l : list (string * V)) g (ns : list (Entry V)) g' ns' k :
  wf g → Replace_merge now l (g, ns) = Ok (g', ns') → k ∉ l.*1 →
  kept_or_reclaimed now (items g) (items g') k.
Proof.
  revert g ns. induction l as [|[id obj] l IH]; intros g ns Hwf Hrun Hk.
  - injection Hrun as <- <-. by left.
  - cbn [Replace_merge fst snd] in Hrun.
    rewrite fmap_cons in Hk. cbn in Hk. apply not_elem_of_cons in Hk as [Hne Hk].
    pose proof (wf_with_queue g (queue g ++ [id]) Hwf) as Hwf1.
    destruct (merge_result _ id obj now Hwf1)
      as (its & n & g1 & _ & Hm & Hwf2 & _).
    rewrite Hm in Hrun. cbn in Hrun.
    eapply kept_or_reclaimed_trans; [|by eapply IH].
    by apply (merge_frame _ id obj now g1 n k Hwf1 Hm).
Qed.

Lemma Pop_loop_frame its q its' q' (out : PopOutcome V) k :
  Pop_loop its q = (its', q', out) →
  (∀ E, its !! k = Some E → Is E DELETE_or_POP = true) →
  its' !! k = its !! k.
Proof.
  revert its' q' out. induction q as [|id q IH]; intros its' q' out; cbn.
  - by intros [= <- <- <-].
  - destruct (its !! id) as [item|] eqn:Hid; [|by apply IH].
    destruct (Is item DELETE_or_POP) eqn:Hitem; [by apply IH|].
    intros [= <- <- <-] Hh. apply lookup_insert_ne. intros ->.
    specialize (Hh item Hid). congruence.
Qed.

(** ** The read operations *)

Lemma Get_Some f k v :
  Get f k = Some v ↔ ∃ E, items f !! k = Some E ∧ live_entry E ∧ v = Copy (Value E).
Proof.
  unfold Get, live_entry. destruct (items f !! k) as [E|].
  - destruct (Is E DELETE_or_POP) eqn:HE; cbn.
    + split; [done|]. intros (E' & [= <-] & ? & _). congruence.
    + split; [intros [= <-]; by eauto|]. by intros (E' & [= <-] & _ & ->).
  - split; [done|]. by intros (E' & ? & _).
Qed.

Lemma Get_hidden f k : Get f k = None ↔ hidden f k.
Proof.
  unfold Get, hidden. destruct (items f !! k) as [E|].
  - destruct (Is E DELETE_or_POP) eqn:HE; cbn.
    + split; [by intros _ ? [= <-]|done].
    + split; [done|]. intros Hh. specialize (Hh E eq_refl). congruence.
  - split; [done|done].
Qed.

Lemma ContainedIDs_scan_spec (l : list (string * Entry V)) (S : gset string) k :
  k ∈ ContainedIDs_scan l S ↔ k ∈ S ∨ ∃ E, (k, E) ∈ l ∧ live_entry E.
Proof.
  unfold live_entry. revert S. induction l as [|[k0 E0] l IH]; intros S; cbn.
  - split; [by left|]. intros [?|(E & HE & _)]; [done|]. by apply elem_of_nil in HE.
  - destruct (Is E0 DELETE_or_POP) eqn:HE0; rewrite IH.
    + split.
      * intros [?|(E & HE & Hl)]; [by left|]. right. exists E. split; [by right|done].
      * intros [?|(E & HE & Hl)]; [by left|].
        apply elem_of_cons in HE as [[= -> ->]|HE]; [congruence|by eauto].
    + rewrite elem_of_union, elem_of_singleton. split.
      * intros [[?| ->]|(E & HE & Hl)]; [by left| |].
        -- right. exists E0. split; [left|done].
        -- right. exists E. split; [by right|done].
      * intros [?|(E & HE & Hl)]; [by left; left|].
        apply elem_of_cons in HE as [[= -> ->]|HE]; [left; by right|by eauto].
Qed.

Lemma elem_of_ContainedIDs f k : k ∈ ContainedIDs f ↔ live f k.
Proof.
  unfold ContainedIDs, live. rewrite ContainedIDs_scan_spec.
  setoid_rewrite range_elem_of. split; [|by right].
  intros [Hemp|?]; [|done]. by apply not_elem_of_empty in Hemp.
Qed.

Lemma live_not_hidden f k : live f k ↔ ¬ hidden f k.
Proof.
  rewrite <- is_live_true, <- is_live_false. by destruct (is_live f k).
Qed.

Lemma List_scan_spec (l : list (string * Entry V)) (out : list V) :
  List_scan l out =
    out ++ ((λ kE, Copy (Value kE.2))
              <$> filter (λ kE : string * Entry V, Is kE.2 DELETE_or_POP = false) l).
Proof.
  revert out. induction l as [|[k0 E0] l IH]; intros out; cbn [List_scan].
  - by rewrite filter_nil, app_nil_r.
  - rewrite filter_cons. cbn [snd]. destruct (Is E0 DELETE_or_POP) eqn:HE0.
    + rewrite decide_False by done. apply IH.
    + rewrite decide_True by done. rewrite IH, fmap_cons. cbn [snd].
      by rewrite <- app_assoc.
Qed.

(** [List], up to the order of the range: the copies of the values of the
    live entries. *)
Lemma List_perm f :
  List f ≡ₚ
    (λ kE, Copy (Value kE.2))
      <$> filter (λ kE : string * Entry V, Is kE.2 DELETE_or_POP = false)
                 (map_to_list (items f)).
Proof.
  unfold List. rewrite List_scan_spec. cbn. by rewrite (range_perm _ (items f)).
Qed.

Lemma elem_of_List f v :
  v ∈ List f ↔ ∃ k E, items f !! k = Some E ∧ live_entry E ∧ v = Copy (Value E).
Proof.
  rewrite List_perm, list_elem_of_fmap. unfold live_entry. split.
  - intros ([k E] & -> & [Hl HE%elem_of_map_to_list]%list_elem_of_filter).
    by exists k, E.
  - intros (k & E & HE & Hl & ->). exists (k, E). split; [done|].
    apply list_elem_of_filter. split; [done|]. by apply elem_of_map_to_list.
Qed.

(** A hidden key contributes nothing to [List]. *)
Lemma List_hidden f K :
  hidden f K → List f ≡ₚ List (with_items f (delete K (items f))).
Proof.
  intros Hh. rewrite !List_perm. cbn.
  destruct (items f !! K) as [E|] eqn:HK.
  - rewrite <- (insert_delete_id (items f) K E HK) at 1.
    rewrite map_to_list_insert by apply lookup_delete_eq.
    rewrite filter_cons_False; [done|]. cbn. rewrite (Hh E HK). done.
  - by rewrite delete_id.
Qed.

(** ** One call and the entry of a key it does not merge *)

Lemma Replace_unfold f (m : gmap string V) now :
  tags_ok (items f) →
  ∃ its1, tags_ok its1
    ∧ (∀ k, its1 !! k =
         match items f !! k with
         | Some E => Some (if doomed m k E
                           then tombstone_of (now + lingerTTL f) E else E)
         | None => None
         end)
    ∧ Replace f m now =
        Replace_merge now (range m)
          (mkFIFO its1 [] (gcc f) (lingerTTL f),
           tombstones m (now + lingerTTL f) (range (items f))).
Proof.
  intros Htag.
  destruct (Replace_scan_items (with_queue f []) m (now + lingerTTL f) Htag)
    as (its1 & Hrun & Htag1 & Hlook).
  exists its1. split_and!; [done|done|].
  unfold Replace. cbn in Hrun |- *. by rewrite Hrun.
Qed.

Lemma range_keys {A : Type} (m : gmap string A) k :
  k ∈ (range m).*1 ↔ is_Some (m !! k).
Proof.
  rewrite list_elem_of_fmap. split.
  - intros ([k' x] & -> & Hx%range_elem_of). by eauto.
  - intros [x Hx]. exists (k, x). split; [done|]. by apply range_elem_of.
Qed.

Lemma step_frame f (op : Op V) now f' (d : list (Entry V)) K :
  wf f → step f op now = Ok (f', d) → writes op K = false → hidden f K →
  kept_or_reclaimed now (items f) (items f') K.
Proof.
  intros Hwf Hstep Hw Hh. destruct op as [id v|id v|id v t|id| |m]; cbn in Hstep, Hw;
    try apply bool_decide_eq_false in Hw; try done.
  - destruct (Add f id v now) as [[f1 n]|] eqn:Hadd; [|done].
    injection Hstep as <- <-. rewrite Add_merge in Hadd.
    apply (merge_frame _ id v now f1 n K) in Hadd;
      [done|by apply wf_with_queue|congruence].
  - unfold Update in Hstep.
    destruct (Add f id v now) as [[f1 n]|] eqn:Hadd; [|done].
    injection Hstep as <- <-. rewrite Add_merge in Hadd.
    apply (merge_frame _ id v now f1 n K) in Hadd;
      [done|by apply wf_with_queue|congruence].
  - destruct (Readd f id v t now) as [[f1 n]|] eqn:Hadd; [|done].
    injection Hstep as <- <-.
    destruct (Readd_cases f id v t now) as [[Hre _]|[Hre _]]; rewrite Hre in Hadd.
    + injection Hadd as <- <-. by left.
    + apply (merge_frame _ id v now f1 n K) in Hadd;
        [done|by apply wf_with_queue|congruence].
  - destruct Hwf as (Htag & _). rewrite Delete_spec in Hstep by done.
    left. destruct (items f !! id) as [[e|dd]|]; cbn in Hstep;
      injection Hstep as <- <-; [|done|done].
    cbn. by rewrite lookup_insert_ne.
  - destruct (Pop f) as [f1 out] eqn:Hpop.
    assert (f' = f1) as -> by (destruct out; by injection Hstep as <- <-).
    unfold Pop in Hpop.
    destruct (Pop_loop (items f) (queue f)) as [[its q] o] eqn:Hloop.
    injection Hpop as <- <-. left. cbn.
    apply (Pop_loop_frame _ _ _ _ _ K Hloop Hh).
Qed.



Lemma step_popped f (op : Op V) now f' (d : list (Entry V)) K E :
  wf f → step f op now = Ok (f', d) → writes op K = false →
  items f !! K = Some E → Is E DELETE_EVENT = false → Is E DELETE_or_POP = true →
  items f' !! K = Some E.
Proof.
  intros Hwf Hstep Hw HK Hdel Hpop.
  apply (kept_or_reclaimed_live now (items f)); [|done|done].
  eapply step_frame; [done|done|done|].
  intros E'. rewrite HK. by intros [= <-].
Qed.

Lemma exec_popped f (calls : list (Op V * Time)) f' K E :
  wf f → exec f calls = Ok f' →
  (∀ op now, (op, now) ∈ calls → writes op K = false) →
  items f !! K = Some E → Is E DELETE_EVENT = false → Is E DELETE_or_POP = true →
  items f' !! K = Some E.
Proof.
  revert f. induction calls as [|[op now] calls IH];
    intros f Hwf Hexec Hcalls HK Hdel Hpop.
  - by injection Hexec as <-.
  - cbn in Hexec. destruct (step_ok f op now Hwf) as (f1 & d & Hstep & Hwf1).
    rewrite Hstep in Hexec. cbn in Hexec.
    apply (IH f1); [done|done| | |done|done].
    + intros op' now' Hin. apply (Hcalls op' now'). by right.
    + apply (step_popped f op now f1 d K E Hwf Hstep); [|done..].
      apply (Hcalls op now). left.
Qed.

Lemma merge_all_gcc f (l : list (string * V * Time)) g :
  wf f → merge_all f l = Ok g → gcc g = (gcc f + Z.of_nat (length l)) mod 256.
Proof.
  revert f. induction l as [|[[id obj] now] l IH]; intros f Hwf Hrun.
  - injection Hrun as <-. destruct Hwf as (_ & Hg & _). cbn.
    rewrite Z.add_0_r, Z.mod_small; lia.
  - cbn [merge_all] in Hrun.
    destruct (merge_result f id obj now Hwf)
      as (its & n & f1 & _ & Hm & Hwf1 & _ & Hg1 & _).
    rewrite Hm in Hrun. cbn in Hrun. rewrite (IH f1 Hwf1 Hrun), Hg1.
    cbn [length]. rewrite Nat2Z.inj_succ, Zplus_mod_idemp_l. f_equal. lia.
Qed.

(** ** The second loop of Replace *)

Lemma kept_or_reclaimed_fresh now its its' k E :
  kept_or_reclaimed now its its' k → its !! k = Some E →
  expired now E = false → its' !! k = Some E.
Proof.
  intros [Hk|[_ (E' & HE' & He)]] HE Hexp; [congruence|].
  rewrite HE in HE'. injection HE' as <-. congruence.
Qed.

Lemma kept_or_reclaimed_None now its its' k :
  kept_or_reclaimed now its its' k → its !! k = None → its' !! k = None.
Proof. intros [Hk|[Hk _]] HE; congruence. Qed.

Lemma merge_items_local f g id obj now its n :
  items f !! id = items g !! id → lingerTTL f = lingerTTL g →
  merge_items f id obj now = Ok (its, n) →
  ∃ its', merge_items g id obj now = Ok (its', n) ∧ its' !! id = its !! id.
Proof.
  unfold merge_items. intros Hid Httl. rewrite <- Hid, <- Httl.
  destruct (items f !! id) as [item|] eqn:Hf.
  - destruct (negb (Is item DELETE_EVENT)
              && bool_decide (GetUID (Value item) ≠ GetUID obj)).
    + destruct item as [ent|d]; [|done]. intros [= <- <-].
      eexists. split; [done|]. by rewrite !lookup_insert_eq.
    + destruct (negb (DeepEqual obj (Value item))).
      * intros [= <- <-]. eexists. split; [done|]. by rewrite !lookup_insert_eq.
      * intros [= <- <-]. eexists. split; [done|]. by rewrite Hf.
  - intros [= <- <-]. eexists. split; [done|]. by rewrite !lookup_insert_eq.
Qed.

(** A pending key stays pending through a merge, unless the sweep of that
    merge reclaims its entry. *)
Lemma merge_pending f id obj now f' n k :
  wf f → merge f id obj now = Ok (f', n) → k ∈ queue f →
  k ∈ queue f' ∨ items f' !! k = None.
Proof.
  intros Hwf Hm Hk.
  destruct (merge_result f id obj now Hwf)
    as (its & n' & f'' & _ & Hm' & _ & _ & _ & Hitems & Hq).
  rewrite Hm in Hm'. injection Hm' as <- <-.
  rewrite Hitems, Hq. clear Hitems Hq.
  destruct (decide (gcc f = 255)); [|by left].
  destruct (decide (k ∈ reclaimed now its)) as [Hr|Hr].
  - right. apply elem_of_reclaimed in Hr as (E & HE & He).
    by rewrite lookup_swept, HE, He.
  - left. by apply list_elem_of_filter.
Qed.

Lemma Replace_merge_pending now (l : list (string * V)) g (ns : list (Entry V))
    g' ns' k :
  wf g → Replace_merge now l (g, ns) = Ok (g', ns') → k ∉ l.*1 →
  k ∈ queue g ∨ items g !! k = None →
  k ∈ queue g' ∨ items g' !! k = None.
Proof.
  revert g ns. induction l as [|[id obj] l IH]; intros g ns Hwf Hrun Hk HJ.
  - by injection Hrun as <- <-.
  - cbn [Replace_merge fst snd] in Hrun.
    rewrite fmap_cons in Hk. cbn in Hk. apply not_elem_of_cons in Hk as [Hne Hk].
    pose proof (wf_with_queue g (queue g ++ [id]) Hwf) as Hwf1.
    destruct (merge_result _ id obj now Hwf1) as (its & n & g1 & _ & Hm & Hwf2 & _).
    rewrite Hm in Hrun. cbn in Hrun.
    apply (IH g1 (ns ++ n) Hwf2 Hrun Hk).
    destruct HJ as [Hq|Hnone].
    + apply (merge_pending _ id obj now g1 n k Hwf1 Hm). cbn.
      apply elem_of_app. by left.
    + right. eapply kept_or_reclaimed_None; [|exact Hnone].
      by apply (merge_frame _ id obj now g1 n k Hwf1 Hm).
Qed.

Lemma Replace_merge_notifications now (l : list (string * V)) g
    (ns : list (Entry V)) g' ns' :
  wf g → Replace_merge now l (g, ns) = Ok (g', ns') → ∃ ms, ns' = ns ++ ms.
Proof.
  revert g ns. induction l as [|[id obj] l IH]; intros g ns Hwf Hrun.
  - injection Hrun as <- <-. exists []. by rewrite app_nil_r.
  - cbn [Replace_merge fst snd] in Hrun.
    pose proof (wf_with_queue g (queue g ++ [id]) Hwf) as Hwf1.
    destruct (merge_result _ id obj now Hwf1) as (its & n & g1 & _ & Hm & Hwf2 & _).
    rewrite Hm in Hrun. cbn in Hrun.
    destruct (IH g1 (ns ++ n) Hwf2 Hrun) as [ms ->].
    exists (n ++ ms). by rewrite app_assoc.
Qed.

Lemma Replace_merge_queue now (l : list (string * V)) g (ns : list (Entry V))
    g' ns' :
  wf g → Replace_merge now l (g, ns) = Ok (g', ns') →
  wf g'
  ∧ lingerTTL g' = lingerTTL g
  ∧ queue g' `sublist_of` queue g ++ l.*1
  ∧ (gcc g + Z.of_nat (length l) < 256 →
       queue g' = queue g ++ l.*1 ∧ gcc g' = gcc g + Z.of_nat (length l)).
Proof.
  revert g ns. induction l as [|[id obj] l IH]; intros g ns Hwf Hrun.
  - injection Hrun as <- <-. cbn. rewrite app_nil_r, Z.add_0_r. done.
  - cbn [Replace_merge fst snd] in Hrun.
    pose proof (wf_with_queue g (queue g ++ [id]) Hwf) as Hwf1.
    destruct (merge_result _ id obj now Hwf1)
      as (its & n & g1 & _ & Hm & Hwf2 & Httl & Hg & _ & Hq).
    rewrite Hm in Hrun. cbn in Hrun.
    destruct (IH g1 (ns ++ n) Hwf2 Hrun) as (Hwf' & Httl' & Hsub & Hexact).
    cbn in Hq, Hg, Httl.
    split_and!; [done|congruence| |].
    + etrans; [exact Hsub|]. rewrite fmap_cons. cbn [fst].
      rewrite (cons_middle id), app_assoc. apply sublist_app; [|done].
      rewrite Hq. destruct (decide (gcc g = 255)); [apply sublist_filter|done].
    + cbn [length]. rewrite Nat2Z.inj_succ. intros Hlt.
      destruct Hwf as (_ & Hgg & _).
      rewrite decide_False in Hq by lia.
      rewrite Z.mod_small in Hg by lia.
      destruct Hexact as [-> ->]; [lia|].
      rewrite Hq, Hg, fmap_cons. cbn [fst].
      split; [by rewrite <- app_assoc|lia].
Qed.

(** Every pair of the map is merged once: on the state [gk] its turn finds,
    where the key still has the entry it had before the loop unless a sweep
    has reclaimed it; what that merge leaves under the key stays to the end
    of the loop, again unless a sweep reclaims it. *)
Lemma Replace_merge_each now (l : list (string * V)) g (ns : list (Entry V))
    g' ns' k v :
  wf g → NoDup l.*1 → Replace_merge now l (g, ns) = Ok (g', ns') → (k, v) ∈ l →
  ∃ gk gk' n,
    wf gk
    ∧ lingerTTL gk = lingerTTL g
    ∧ kept_or_reclaimed now (items g) (items gk) k
    ∧ merge (with_queue gk (queue gk ++ [k])) k v now = Ok (gk', n)
    ∧ kept_or_reclaimed now (items gk') (items g') k
    ∧ n `sublist_of` ns'
    ∧ (k ∈ queue g' ∨ items g' !! k = None).
Proof.
  revert g ns. induction l as [|[id obj] l IH]; intros g ns Hwf Hnd Hrun Hin.
  - by apply elem_of_nil in Hin.
  - cbn [Replace_merge fst snd] in Hrun.
    rewrite fmap_cons in Hnd. cbn in Hnd. apply NoDup_cons in Hnd as [Hid Hnd].
    pose proof (wf_with_queue g (queue g ++ [id]) Hwf) as Hwf1.
    destruct (merge_result _ id obj now Hwf1)
      as (its & n & g1 & _ & Hm & Hwf2 & Httl & _).
    rewrite Hm in Hrun. cbn in Hrun.
    apply elem_of_cons in Hin as [[= -> ->]|Hin].
    + exists g, g1, n. split_and!; [done|done|by left|done| | |].
      * by apply (Replace_merge_frame now l g1 (ns ++ n) g' ns').
      * destruct (Replace_merge_notifications now l g1 (ns ++ n) g' ns' Hwf2 Hrun)
          as [ms ->].
        apply sublist_inserts_r, sublist_inserts_l. done.
      * apply (Replace_merge_pending now l g1 (ns ++ n) g' ns' id Hwf2 Hrun Hid).
        apply (merge_pending _ id obj now g1 n id Hwf1 Hm). cbn.
        apply elem_of_app. right. left.
    + assert (k ≠ id) as Hne.
      { intros ->. apply Hid. apply list_elem_of_fmap. by exists (id, v). }
      destruct (IH g1 (ns ++ n) Hwf2 Hnd Hrun Hin)
        as (gk & gk' & nk & Hwfk & Httlk & Hkept & Hmk & Hkept' & Hsub & HJ).
      exists gk, gk', nk. split_and!; [done| | |done|done|done|done].
      * cbn in Httl. congruence.
      * eapply kept_or_reclaimed_trans; [|exact Hkept].
        by apply (merge_frame _ id obj now g1 n k Hwf1 Hm).
Qed.

(** When the key had no expired tombstone before the loop, the sweeps do
    not interfere: its entry after the loop is the one that [merge] makes
    of the entry before the loop, its notifications are among those of the
    loop, in their order, and the key is pending. *)
Lemma Replace_merge_each_fresh now (l : list (string * V)) g (ns : list (Entry V))
    g' ns' k v :
  wf g → NoDup l.*1 → Replace_merge now l (g, ns) = Ok (g', ns') → (k, v) ∈ l →
  (∀ E, items g !! k = Some E → expired now E = false) →
  ∃ its n, merge_items g k v now = Ok (its, n)
    ∧ items g' !! k = its !! k
    ∧ n `sublist_of` ns'
    ∧ k ∈ queue g'.
Proof.
  intros Hwf Hnd Hrun Hin Hfresh.
  destruct (Replace_merge_each now l g ns g' ns' k v Hwf Hnd Hrun Hin)
    as (gk & gk' & n & Hwfk & Httlk & Hkept & Hmk & Hkept' & Hsub & HJ).
  assert (items gk !! k = items g !! k) as Hsame.
  { destruct (items g !! k) as [E|] eqn:HE.
    - by apply (kept_or_reclaimed_fresh now (items g) _ k E Hkept HE), Hfresh.
    - by apply (kept_or_reclaimed_None now (items g)). }
  set (g0 := with_queue gk (queue gk ++ [k])) in *.
  assert (wf g0) as Hwf0 by (by apply wf_with_queue).
  destruct (merge_result g0 k v now Hwf0)
    as (itsk & n' & gk'' & Hitsk & Hmk' & _ & _ & _ & Hitems & _).
  rewrite Hmk in Hmk'. injection Hmk' as <- <-.
  destruct (merge_items_local g0 g k v now itsk n) as (its & Hits & Hlook);
    [done|done|done|].
  destruct (merge_items_ok g0 k v now (proj1 Hwf0))
    as (its2 & n2 & Hits2 & _ & _ & Hcase).
  rewrite Hitsk in Hits2. injection Hits2 as <- <-.
  assert (∃ E, itsk !! k = Some E ∧ expired now E = false) as (E & HE & Hexp).
  { destruct Hcase as [(Heq & [E HE] & _)|(e & He & Hlive & _)].
    - exists E. split; [congruence|]. apply Hfresh. cbn in HE. congruence.
    - exists (PlainEntry e). split; [done|done]. }
  assert (items gk' !! k = Some E) as Hgk'.
  { rewrite Hitems. by apply lookup_kept_decide. }
  pose proof (kept_or_reclaimed_fresh now _ _ k E Hkept' Hgk' Hexp) as Hg'.
  exists its, n. split_and!; [done|congruence|done|].
  destruct HJ as [?|Hnone]; [done|congruence].
Qed.

(** * The statements of the specification *)

(** C8.  [Delete(K)] leaves the pending sequence (and the counter and the
    linger time) as they are.  When [K] has no entry, or its entry is
    already tagged Delete, the map is unchanged and the carrier gets
    nothing.  Otherwise the map changes at [K] only: the entry is tagged
    Delete and stored back under [K] as a tombstone that expires at
    [now + lingerTTL]; that tombstone is the notification. *)
Theorem Delete_frame f K now :
  tags_ok (items f) →
  ∃ f' n, Delete f K now = Ok (f', n)
    ∧ queue f' = queue f ∧ gcc f' = gcc f ∧ lingerTTL f' = lingerTTL f
    ∧ ((items f !! K = None
        ∨ ∃ E, items f !! K = Some E ∧ Is E DELETE_EVENT = true) →
       items f' = items f ∧ n = None ∧ carrier n = [])
    ∧ (∀ E, items f !! K = Some E → Is E DELETE_EVENT = false →
       let t := Tombstone (mkDeletedEntry (mkEntry (Value E) DELETE_EVENT)
                                          (now + lingerTTL f)) in
       items f' = <[K := t]> (items f)
       ∧ n = Some t
       ∧ ∀ k, k ≠ K → items f' !! k = items f !! k).
Proof.
  intros Htag. rewrite Delete_spec by done.
  destruct (items f !! K) as [E|] eqn:HK.
  - pose proof (Htag K E HK) as HE. destruct E as [e|d].
    + eexists _, _. split; [done|]. cbn. split_and!; try done.
      * intros [?|(E & [= <-] & Hdel)]; [done|].
        by rewrite Plain_not_DELETE in Hdel.
      * intros E [= <-] _. split_and!; [done|done|].
        intros k Hk. by rewrite lookup_insert_ne.
    + eexists _, _. split; [done|]. split_and!; try done.
      intros E [= <-] Hdel. by rewrite Tombstone_Is_DELETE in Hdel.
  - eexists _, _. split; [done|]. split_and!; try done.
Qed.

(** C2.  The hidden delete.  When [K] holds an entry that is not tagged
    Delete and whose value has another unique identifier than [v2],
    [Add(K, v2)] hands the carrier exactly two entries, in this order: the
    old value tagged Delete, as a tombstone expiring at [now + lingerTTL],
    then a fresh Add-tagged entry of (the copy of) [v2]; and that fresh
    entry is what the map holds under [K] afterwards. *)
Theorem Add_hidden_delete f K v2 now E :
  wf f →
  items f !! K = Some E →
  Is E DELETE_EVENT = false →
  GetUID (Value E) ≠ GetUID v2 →
  let t := Tombstone (mkDeletedEntry (mkEntry (Value E) DELETE_EVENT)
                                     (now + lingerTTL f)) in
  let a := PlainEntry (mkEntry (Copy v2) ADD_EVENT) in
  ∃ f', Add f K v2 now = Ok (f', [t; a])
    ∧ items f' !! K = Some a
    ∧ deliver [t; a] = [Entry_Copy t; Entry_Copy a].
Proof.
  intros Hwf HK Hdel Huid t a. rewrite Add_merge.
  set (f0 := with_queue f _).
  destruct (merge_result f0 K v2 now) as (its & n & f' & Hits & Hm & _ & _ & _ & Hitems & _);
    [by apply wf_with_queue|].
  destruct (Is_DELETE_Plain E) as [ent ->]; [by apply Hwf in HK|done|].
  rewrite (merge_items_hidden_delete f0 K v2 now ent) in Hits by done.
  injection Hits as <- <-.
  exists f'. split_and!; [done| |done].
  rewrite Hitems. apply lookup_kept_decide; [apply lookup_insert_eq|done].
Qed.

(** C5, as the code has it.  [Readd(K, v, mask)] returns without a change
    and without a notification when [K] has an entry that does not match
    [mask]; so [Readd(K, v, Add)] does nothing on an entry tagged Update,
    and nothing either on an entry tagged Delete.  A tombstone is re-added
    only under a mask that contains Delete: [K] is then appended to the
    pending sequence and [v] merged, and the merge is counted (and sweeps,
    when it is the 256th).  When [v] differs from the tombstoned value an
    Update-tagged entry is stored and notified, and [K] is pending.  When
    it does not, nothing is stored and nothing is notified: the map is
    unchanged and [K] stays appended, unless the merge sweeps; then the map
    is the swept one, where an expired tombstone of [K] is reclaimed, and
    the pending sequence is filtered accordingly. *)
Theorem Readd_guard f K v mask now E :
  items f !! K = Some E →
  (Is E mask = false →
     Readd f K v mask now = Ok (f, []) ∧ deliver ([] : list (Entry V)) = [])
  ∧ (event (entry_part E) = UPDATE_EVENT → Readd f K v ADD_EVENT now = Ok (f, []))
  ∧ (event (entry_part E) = DELETE_EVENT → Readd f K v ADD_EVENT now = Ok (f, []))
  ∧ (wf f → Is E DELETE_EVENT = true → Is E mask = true →
     let u := PlainEntry (mkEntry (Copy v) UPDATE_EVENT) in
     ∃ f' n, Readd f K v mask now = Ok (f', n)
       ∧ Readd f K v mask now = merge (with_queue f (queue f ++ [K])) K v now
       ∧ gcc f' = (gcc f + 1) mod 256
       ∧ lingerTTL f' = lingerTTL f
       ∧ queue f' `sublist_of` queue f ++ [K]
       ∧ (gcc f ≠ 255 → queue f' = queue f ++ [K])
       ∧ (DeepEqual v (Value E) = false →
            n = [u] ∧ items f' !! K = Some u ∧ K ∈ queue f')
       ∧ (DeepEqual v (Value E) = true →
            n = []
            ∧ (gcc f ≠ 255 → items f' = items f)
            ∧ (gcc f = 255 →
                 items f' = swept now (items f)
                 ∧ queue f' =
                     filter (λ k, k ∉ reclaimed now (items f)) (queue f ++ [K]))
            ∧ items f' !! K =
                if decide (gcc f = 255)
                then (if expired now E then None else Some E)
                else Some E)).
Proof.
  intros HK.
  assert (∀ t, Is E t = false → Readd f K v t now = Ok (f, [])) as Hnoop.
  { intros t Ht. unfold Readd. by rewrite HK, Ht. }
  split_and!.
  - intros Hmask. by rewrite Hnoop.
  - intros Hev. apply Hnoop. destruct E; cbn in *; unfold entry_Is; by rewrite Hev.
  - intros Hev. apply Hnoop. destruct E; cbn in *; unfold entry_Is; by rewrite Hev.
  - intros Hwf Hdel Hmask u.
    assert (Readd f K v mask now = merge (with_queue f (queue f ++ [K])) K v now) as Hre.
    { unfold Readd. rewrite HK, Hmask. cbn [negb].
      by rewrite (Is_DELETE_weaken E Hdel). }
    set (f0 := with_queue f (queue f ++ [K])) in *.
    assert (wf f0) as Hwf0 by (by apply wf_with_queue).
    destruct (merge_result f0 K v now Hwf0)
      as (its & n & f' & Hits & Hm & _ & Httl & Hg & Hitems & Hq).
    change (gcc f0) with (gcc f) in *. change (queue f0) with (queue f ++ [K]) in *.
    change (lingerTTL f0) with (lingerTTL f) in *.
    exists f', n. rewrite Hre. split_and!; [done|done|done|done| | | |].
    + rewrite Hq. destruct (decide (gcc f = 255)); [apply sublist_filter|done].
    + intros H255. rewrite Hq. by rewrite decide_False.
    + intros Hneq.
      rewrite (merge_items_update f0 K v now E) in Hits by auto.
      injection Hits as <- <-.
      assert (items f' !! K = Some u) as Hu.
      { rewrite Hitems. apply lookup_kept_decide; [apply lookup_insert_eq|done]. }
      split_and!; [done|done|].
      destruct (merge_pending f0 K v now f' _ K Hwf0 Hm) as [?|Hnone]; [|done|].
      * cbn. apply elem_of_app. right. left.
      * congruence.
    + intros Heq.
      rewrite (merge_items_unchanged f0 K v now E) in Hits by auto.
      injection Hits as <- <-. change (items f0) with (items f) in *.
      split_and!; [done| | |].
      * intros H255. rewrite Hitems. by rewrite decide_False.
      * intros H255. rewrite Hitems, Hq. by rewrite !decide_True.
      * rewrite Hitems. clear Hitems Hq.
        destruct (decide (gcc f = 255)); [by rewrite lookup_swept, HK|done].
Qed.

(** C10, as the code has it.  The sweep removes nothing but entries tagged
    Delete, so an entry tagged Pop outlives it.  That entry is invisible to
    [Get], [List] and [ContainedIDs], and it stays under its key through
    every sequence of calls that holds no [Add], [Update], [Readd] or
    [Delete] of the key and no [Replace]. *)
Theorem popped_entry_persists f K (e : entry V) now :
  wf f →
  items f !! K = Some (PlainEntry e) →
  event e = POP_EVENT →
  (∃ f', gc f now = Ok f'
     ∧ items f' !! K = Some (PlainEntry e)
     ∧ ∀ k E, items f !! k = Some E → Is E DELETE_EVENT = false →
         items f' !! k = Some E)
  ∧ Get f K = None
  ∧ (K ∉ ContainedIDs f)
  ∧ List f ≡ₚ List (with_items f (delete K (items f)))
  ∧ (∀ (calls : list (Op V * Time)) f',
       (∀ op now', (op, now') ∈ calls → writes op K = false) →
       exec f calls = Ok f' →
       items f' !! K = Some (PlainEntry e)).
Proof.
  intros Hwf HK Hev.
  assert (Is (PlainEntry e) DELETE_EVENT = false) as Hdel
    by (cbn; unfold entry_Is; by rewrite Hev).
  assert (Is (PlainEntry e) DELETE_or_POP = true) as Hpop
    by (cbn; unfold entry_Is; by rewrite Hev).
  assert (hidden f K) as Hh by (intros E'; rewrite HK; by intros [= <-]).
  split_and!.
  - rewrite gc_spec by apply Hwf. eexists. split; [done|]. cbn.
    assert (∀ k E, items f !! k = Some E → Is E DELETE_EVENT = false →
              swept now (items f) !! k = Some E) as Hkeep.
    { intros k E Hk HE. rewrite lookup_swept, Hk.
      by rewrite not_DELETE_not_expired. }
    split; [by apply Hkeep|done].
  - by apply Get_hidden.
  - rewrite elem_of_ContainedIDs, live_not_hidden. by intros Hn; apply Hn.
  - by apply List_hidden.
  - intros calls f' Hcalls Hexec.
    by apply (exec_popped f calls f' K (PlainEntry e) Hwf Hexec Hcalls).
Qed.

(** C7.  Every merge advances the counter by one, and the counter runs
    through a cycle of 256: after [n] consecutive merges from zero it is
    [n mod 256].  The merge that brings it to 256 resets it and runs the
    sweep; no other merge touches the pending sequence or removes an entry.
    The sweep removes from the map exactly the tombstones (the entries
    tagged Delete) whose expiration is before [now], and the pending
    sequence becomes the old one filtered by "this key was not reclaimed",
    so the keys that stay keep their relative order. *)
Theorem merge_counter_and_sweep f id obj now :
  wf f →
  ∃ its n f',
    merge_items f id obj now = Ok (its, n)
    ∧ merge f id obj now = Ok (f', n)
    ∧ gcc f' = (gcc f + 1) mod 256
    ∧ (∀ (l : list (string * V * Time)) g,
         gcc f = 0 → merge_all f l = Ok g → gcc g = Z.of_nat (length l) mod 256)
    ∧ (gcc f ≠ 255 → items f' = its ∧ queue f' = queue f)
    ∧ (gcc f = 255 →
         (∀ k, items f' !! k =
            match its !! k with
            | Some E => if expired now E then None else Some E
            | None => None
            end)
         ∧ (∀ E, well_tagged E →
              (expired now E = true ↔
               Is E DELETE_EVENT = true
               ∧ ∃ d, E = Tombstone d ∧ expiration d < now))
         ∧ queue f' = filter (λ k, k ∉ reclaimed now its) (queue f)
         ∧ (∀ k, k ∈ reclaimed now its ↔
              is_Some (its !! k) ∧ items f' !! k = None)
         ∧ queue f' `sublist_of` queue f).
Proof.
  intros Hwf.
  destruct (merge_result f id obj now Hwf)
    as (its & n & f' & Hits & Hm & Hwf' & _ & Hg & Hitems & Hq).
  exists its, n, f'. split_and!; [done|done|done| | |].
  - intros l g H0 Hrun. rewrite (merge_all_gcc f l g Hwf Hrun), H0. done.
  - intros H255. by rewrite Hitems, Hq, !decide_False by done.
  - intros H255. rewrite decide_True in Hitems by done.
    rewrite decide_True in Hq by done.
    assert (∀ k, items f' !! k =
            match its !! k with
            | Some E => if expired now E then None else Some E
            | None => None
            end) as Hlook.
    { intros k. rewrite Hitems. apply lookup_swept. }
    split_and!; [done| |done| |].
    + intros E HE. split.
      * intros He. pose proof (expired_Is_DELETE now E He) as Hdel.
        split; [done|]. destruct (Is_DELETE_Tombstone E HE Hdel) as [d ->].
        exists d. split; [done|]. cbn in He.
        apply andb_true_iff in He as [_ He]. by apply Z.ltb_lt.
      * intros [Hdel (d & -> & Hexp)]. cbn. cbn in Hdel. rewrite Hdel.
        by apply Z.ltb_lt.
    + intros k. rewrite elem_of_reclaimed, Hlook. split.
      * intros (E & -> & ->). by eauto.
      * intros [[E HE] Hnone]. rewrite HE in Hnone. exists E. split; [done|].
        by destruct (expired now E).
    + rewrite Hq. apply sublist_filter.
Qed.

(** C9, as the code has it.  A merge (from [Add], [Readd] or [Replace],
    whatever they have done to the pending sequence) of a value for a key
    whose entry is a tombstone does not look at the unique identifiers.  A
    value that is not deep-equal to the tombstoned one is stored as one
    Update-tagged entry and notified once.  A deep-equal value is not
    stored and not notified: the tombstone stays, unless this merge is the
    256th of the cycle and the tombstone has expired, for then the sweep
    that ends the merge reclaims it.  Two notifications come out of a merge
    only for an old entry that is not tagged Delete and has another unique
    identifier. *)
Theorem merge_on_tombstone f K v now (d : deletedEntry V) q :
  wf f →
  items f !! K = Some (Tombstone d) →
  let u := PlainEntry (mkEntry (Copy v) UPDATE_EVENT) in
  ∃ f' n, merge (with_queue f q) K v now = Ok (f', n)
    ∧ Add f K v now = merge (with_queue f (queue f ++ [K])) K v now
    ∧ (DeepEqual v (value (entry_of d)) = false →
         n = [u] ∧ items f' !! K = Some u)
    ∧ (DeepEqual v (value (entry_of d)) = true →
         n = []
         ∧ items f' !! K =
             if decide (gcc f = 255)
             then (if expired now (Tombstone d) then None else Some (Tombstone d))
             else Some (Tombstone d))
    ∧ (∀ g id obj now' its (t a : Entry V),
         merge_items g id obj now' = Ok (its, [t; a]) →
         ∃ e, items g !! id = Some (PlainEntry e)
           ∧ Is (PlainEntry e) DELETE_EVENT = false
           ∧ GetUID (value e) ≠ GetUID obj).
Proof.
  intros Hwf HK u.
  pose proof (Tombstone_Is_DELETE d (proj1 Hwf K _ HK)) as Hdel.
  set (f0 := with_queue f q).
  destruct (merge_result f0 K v now)
    as (its & n & f' & Hits & Hm & _ & _ & _ & Hitems & _);
    [by apply wf_with_queue|].
  exists f', n. split_and!; [done| | | |].
  - rewrite Add_merge. unfold is_live. rewrite HK.
    by rewrite (Is_DELETE_weaken _ Hdel).
  - intros Hneq.
    rewrite (merge_items_update f0 K v now (Tombstone d)) in Hits by auto.
    injection Hits as <- <-. split; [done|].
    rewrite Hitems. apply lookup_kept_decide; [apply lookup_insert_eq|done].
  - intros Heq.
    rewrite (merge_items_unchanged f0 K v now (Tombstone d)) in Hits by auto.
    injection Hits as <- <-. split; [done|].
    rewrite Hitems. clear Hitems. change (gcc f0) with (gcc f).
    destruct (decide (gcc f = 255)); [by rewrite lookup_swept, HK|done].
  - intros g id obj now' its' t a. unfold merge_items.
    destruct (items g !! id) as [item|]; [|done].
    destruct (Is item DELETE_EVENT) eqn:Hitem; cbn [negb andb].
    + by destruct (DeepEqual obj (Value item)).
    + case_bool_decide as Huid.
      * destruct item as [e|dd]; [|done]. intros _. by exists e.
      * by destruct (DeepEqual obj (Value item)).
Qed.

(** C1, as the code has it.  [Add], [Update] and [Readd] append [K] to the
    pending sequence only when [K] has no live entry ([Readd] only when it
    has an entry tagged Delete or Pop that matches the mask): on a live [K]
    the new pending sequence is a subsequence of the old one, and it is the
    old one itself unless this call runs the sweep.  The pending sequence
    itself is not free of duplicates of a live key. *)
Theorem enqueue_rule f K v mask now :
  wf f →
  (∃ f' n, Add f K v now = Ok (f', n)
     ∧ (live f K → queue f' `sublist_of` queue f)
     ∧ queue f' `sublist_of` queue f ++ [K]
     ∧ (gcc f ≠ 255 →
          queue f' = if is_live f K then queue f else queue f ++ [K]))
  ∧ Update f K v now = Add f K v now
  ∧ (∃ f' n, Readd f K v mask now = Ok (f', n)
       ∧ (live f K → queue f' `sublist_of` queue f)
       ∧ (items f !! K = None → queue f' `sublist_of` queue f)
       ∧ queue f' `sublist_of` queue f ++ [K]
       ∧ (gcc f ≠ 255 →
            queue f' =
              match items f !! K with
              | Some E => if Is E mask && Is E DELETE_or_POP
                          then queue f ++ [K] else queue f
              | None => queue f
              end)).
Proof.
  intros Hwf.
  assert (∀ q, ∃ f' n, merge (with_queue f q) K v now = Ok (f', n)
            ∧ queue f' `sublist_of` q
            ∧ (gcc f ≠ 255 → queue f' = q)) as Hmerge.
  { intros q. destruct (merge_result (with_queue f q) K v now)
      as (its & n & f' & _ & Hm & _ & _ & _ & _ & Hq); [by apply wf_with_queue|].
    exists f', n. split; [done|]. rewrite Hq. clear Hq. cbn.
    destruct (decide (gcc f = 255)); split;
      [apply sublist_filter|done|done|done]. }
  split_and!.
  - rewrite Add_merge.
    destruct (Hmerge (if is_live f K then queue f else queue f ++ [K]))
      as (f' & n & Hm & Hsub & Heq).
    exists f', n. split_and!; [done| | |done].
    + intros Hl%is_live_true. by rewrite Hl in Hsub.
    + destruct (is_live f K); [by apply sublist_inserts_r|done].
  - done.
  - destruct (Readd_cases f K v mask now) as [[Hre Hno]|[Hre Hyes]]; rewrite Hre.
    + exists f, []. split_and!; [done|done|done| |].
      * by apply sublist_inserts_r.
      * intros _. destruct Hno as (E & -> & ->). done.
    + destruct (Hmerge (if is_stale f K then queue f ++ [K] else queue f))
        as (f' & n & Hm & Hsub & Heq).
      exists f', n. split_and!; [done| | | |].
      * intros (E & HE & Hl). unfold is_stale in Hsub. rewrite HE in Hsub.
        unfold live_entry in Hl. by rewrite Hl in Hsub.
      * intros HK. unfold is_stale in Hsub. by rewrite HK in Hsub.
      * destruct (is_stale f K); [done|by apply sublist_inserts_r].
      * intros H255. rewrite (Heq H255). unfold is_stale.
        destruct (items f !! K) as [E|] eqn:HE; [|done].
        by rewrite (Hyes E eq_refl).
Qed.

(** C4.  [Replace(newState)] empties the pending sequence and refills it
    with keys of [newState], in the order of the range (with all of them
    when no sweep runs on the way).  Every key that has an entry not tagged
    Delete and is absent from [newState] is left as a tombstone that
    expires at [now + lingerTTL], and that tombstone is notified; a key
    absent from [newState] that has no entry or a tombstone already is left
    alone (a sweep may reclaim it).  Every pair of [newState] goes through
    [merge] once, after its key is appended to the pending sequence, and
    the notifications of that merge are among those of the call.  For a key
    that had no expired tombstone this gives what [merge] makes of its
    entry, and the key is pending afterwards.  So, from a map that holds
    exactly [A] and [B], [Replace] with a map of [B] (to a different value
    of the same identifier) and [C] leaves [List] a permutation of the two
    new values, and the notifications hold the tombstone of [A], the
    Update-tagged entry of [B] and the Add-tagged entry of [C]. *)
Theorem Replace_resync f (m : gmap string V) now :
  wf f →
  ∃ f' ns, Replace f m now = Ok (f', ns)
    ∧ queue f' `sublist_of` (range m).*1
    ∧ (gcc f + Z.of_nat (size m) < 256 → queue f' = (range m).*1)
    ∧ (∀ k E, items f !! k = Some E → m !! k = None →
         Is E DELETE_EVENT = false →
         let t := Tombstone (mkDeletedEntry (mkEntry (Value E) DELETE_EVENT)
                                            (now + lingerTTL f)) in
         items f' !! k = Some t ∧ t ∈ ns)
    ∧ (∀ k, m !! k = None →
         (items f !! k = None
          ∨ ∃ E, items f !! k = Some E ∧ Is E DELETE_EVENT = true) →
         kept_or_reclaimed now (items f) (items f') k)
    ∧ (∀ k v, m !! k = Some v →
         ∃ gk gk' n,
           kept_or_reclaimed now (items f) (items gk) k
           ∧ merge (with_queue gk (queue gk ++ [k])) k v now = Ok (gk', n)
           ∧ kept_or_reclaimed now (items gk') (items f') k
           ∧ n `sublist_of` ns
           ∧ (k ∈ queue f' ∨ items f' !! k = None))
    ∧ (∀ k v, m !! k = Some v →
         (∀ E, items f !! k = Some E → expired now E = false) →
         ∃ its n, merge_items f k v now = Ok (its, n)
           ∧ items f' !! k = its !! k
           ∧ n `sublist_of` ns
           ∧ k ∈ queue f')
    ∧ (∀ A B C (eA eB : entry V) vB vC,
         A ≠ B → A ≠ C → B ≠ C →
         items f = {[A := PlainEntry eA; B := PlainEntry eB]} →
         m = {[B := vB; C := vC]} →
         GetUID (value eB) = GetUID vB →
         DeepEqual vB (value eB) = false →
         List f' ≡ₚ [vB; vC]
         ∧ Tombstone (mkDeletedEntry (mkEntry (value eA) DELETE_EVENT)
                                     (now + lingerTTL f)) ∈ ns
         ∧ PlainEntry (mkEntry (Copy vB) UPDATE_EVENT) ∈ ns
         ∧ PlainEntry (mkEntry (Copy vC) ADD_EVENT) ∈ ns).
Proof.
  intros Hwf. pose proof Hwf as (Htag & Hg & Httl).
  destruct (Replace_unfold f m now Htag) as (its1 & Htag1 & Hlook & Hunfold).
  set (g0 := mkFIFO its1 [] (gcc f) (lingerTTL f)) in *.
  set (tombs := tombstones m (now + lingerTTL f) (range (items f))) in *.
  assert (wf g0) as Hwf0 by (unfold wf; cbn; split_and!; [done|lia..]).
  destruct (Replace_merge_ok now (range m) g0 tombs Hwf0) as (f' & ns & Hrun & Hwf').
  destruct (Replace_merge_queue now (range m) g0 tombs f' ns Hwf0 Hrun)
    as (_ & _ & Hsub & Hexact).
  destruct (Replace_merge_notifications now (range m) g0 tombs f' ns Hwf0 Hrun)
    as [ms Hns].
  assert (∀ k, m !! k = None → kept_or_reclaimed now its1 (items f') k) as Hframe.
  { intros k Hk.
    apply (Replace_merge_frame now (range m) g0 tombs f' ns k Hwf0 Hrun).
    rewrite range_keys, Hk. by intros [? ?]. }
  assert (∀ k v, m !! k = Some v → its1 !! k = items f !! k) as Hmerged.
  { intros k v Hk. rewrite Hlook. destruct (items f !! k) as [E|]; [|done].
    unfold doomed. rewrite bool_decide_eq_false_2; [done|]. by rewrite Hk. }
  assert (∀ k E, items f !! k = Some E → m !! k = None →
            Is E DELETE_EVENT = false →
            let t := Tombstone (mkDeletedEntry (mkEntry (Value E) DELETE_EVENT)
                                               (now + lingerTTL f)) in
            items f' !! k = Some t ∧ t ∈ ns) as Htomb.
  { intros k E HE Hk Hdel t.
    assert (t = tombstone_of (now + lingerTTL f) E) as Ht by (by destruct E).
    assert (doomed m k E = true) as Hdoom.
    { unfold doomed. by rewrite Hdel, bool_decide_eq_true_2. }
    split.
    - apply (kept_or_reclaimed_fresh now its1 _ k t (Hframe k Hk)).
      + by rewrite Hlook, HE, Hdoom, Ht.
      + cbn. apply andb_false_iff. right. apply Z.ltb_ge. lia.
    - rewrite Hns. apply elem_of_app. left. unfold tombs, tombstones.
      apply list_elem_of_fmap. exists (k, E). split; [done|].
      apply list_elem_of_filter. split; [done|]. by apply range_elem_of. }
  assert (∀ k v, m !! k = Some v →
            (∀ E, items f !! k = Some E → expired now E = false) →
            ∃ its n, merge_items f k v now = Ok (its, n)
              ∧ items f' !! k = its !! k
              ∧ n `sublist_of` ns
              ∧ k ∈ queue f') as Hfresh.
  { intros k v Hk Hold.
    destruct (Replace_merge_each_fresh now (range m) g0 tombs f' ns k v)
      as (its0 & n & Hits0 & Hk' & Hn & Hq);
      [done|apply range_NoDup|done|by apply range_elem_of| |].
    { intros E. cbn. rewrite (Hmerged k v Hk). apply Hold. }
    destruct (merge_items_local g0 f k v now its0 n) as (its & Hits & Hitsk);
      [by apply (Hmerged k v)|done|done|].
    exists its, n. split_and!; [done|congruence|done|done]. }
  exists f', ns. rewrite Hunfold. split_and!; [done| | |done| | |done|].
  - by rewrite app_nil_l in Hsub.
  - intros Hlt. destruct Hexact as [Hq _]; [|by rewrite Hq].
    by rewrite (range_perm _ m), length_map_to_list.
  - intros k Hk Hold. pose proof (Hframe k Hk) as Hkept.
    unfold kept_or_reclaimed in *. rewrite Hlook in Hkept.
    destruct Hold as [Hnone|(E & HE & Hdel)].
    + by rewrite Hnone in Hkept |- *.
    + rewrite HE in Hkept |- *. unfold doomed in Hkept. rewrite Hdel in Hkept.
      by rewrite andb_false_r in Hkept.
  - intros k v Hk.
    destruct (Replace_merge_each now (range m) g0 tombs f' ns k v)
      as (gk & gk' & n & _ & _ & Hkept & Hmk & Hkept' & Hn & HJ);
      [done|apply range_NoDup|done|by apply range_elem_of|].
    exists gk, gk', n. split_and!; [|done..].
    unfold kept_or_reclaimed in *. cbn in Hkept.
    by rewrite (Hmerged k v Hk) in Hkept.
  - intros A B C eA eB vB vC HAB HAC HBC Hitems -> Huid Hneq.
    assert (items f !! A = Some (PlainEntry eA)) as HA
      by (by rewrite Hitems, lookup_insert_eq).
    assert (items f !! B = Some (PlainEntry eB)) as HB
      by (by rewrite Hitems, lookup_insert_ne, lookup_singleton_eq).
    assert (∀ k, k ≠ A → k ≠ B → items f !! k = None) as Hother.
    { intros k HkA HkB.
      by rewrite Hitems, lookup_insert_ne, lookup_singleton_ne. }
    set (mm := ({[B := vB; C := vC]} : gmap string V)) in *.
    assert (mm !! A = None) as HmA
      by (unfold mm; by rewrite lookup_insert_ne, lookup_singleton_ne).
    assert (mm !! B = Some vB) as HmB by (unfold mm; by rewrite lookup_insert_eq).
    assert (mm !! C = Some vC) as HmC
      by (unfold mm; by rewrite lookup_insert_ne, lookup_singleton_eq).
    assert (∀ k, k ≠ B → k ≠ C → mm !! k = None) as Hmother.
    { intros k HkB HkC. unfold mm.
      by rewrite lookup_insert_ne, lookup_singleton_ne. }
    set (tA := Tombstone (mkDeletedEntry (mkEntry (value eA) DELETE_EVENT)
                                         (now + lingerTTL f))).
    set (uB := PlainEntry (mkEntry (Copy vB) UPDATE_EVENT)).
    set (aC := PlainEntry (mkEntry (Copy vC) ADD_EVENT)).
    destruct (Htomb A (PlainEntry eA) HA HmA) as [HfA HnA].
    { apply Plain_not_DELETE. by apply (Htag A). }
    destruct (Hfresh B vB HmB) as (itsB & nB & HitsB & HfB & HnB & _).
    { intros E. rewrite HB. by intros [= <-]. }
    rewrite (merge_items_update f B vB now (PlainEntry eB)) in HitsB by auto.
    injection HitsB as <- <-. rewrite lookup_insert_eq in HfB.
    destruct (Hfresh C vC HmC) as (itsC & nC & HitsC & HfC & HnC & _).
    { intros E. rewrite Hother by done. done. }
    rewrite merge_items_absent in HitsC by (by apply Hother).
    injection HitsC as <- <-. rewrite lookup_insert_eq in HfC.
    split_and!; [|done|by apply elem_of_sublist with [uB]; [left|]
                 |by apply elem_of_sublist with [aC]; [left|]].
    assert (items f' = <[A := tA]> (<[B := uB]> (<[C := aC]> ∅))) as Hfinal.
    { apply map_eq. intros k.
      destruct (decide (k = A)) as [->|HkA]; [by rewrite lookup_insert_eq|].
      rewrite lookup_insert_ne by done.
      destruct (decide (k = B)) as [->|HkB]; [by rewrite lookup_insert_eq|].
      rewrite lookup_insert_ne by done.
      destruct (decide (k = C)) as [->|HkC]; [by rewrite lookup_insert_eq|].
      rewrite lookup_insert_ne, lookup_empty by done.
      apply (kept_or_reclaimed_None now its1); [by apply Hframe, Hmother|].
      by rewrite Hlook, Hother. }
    rewrite List_perm, Hfinal.
    rewrite map_to_list_insert
      by (by rewrite !lookup_insert_ne, lookup_empty).
    rewrite map_to_list_insert by (by rewrite lookup_insert_ne, lookup_empty).
    rewrite map_to_list_insert by apply lookup_empty.
    rewrite map_to_list_empty.
    rewrite filter_cons_False by (cbn; unfold entry_Is; done).
    rewrite filter_cons_True by done.
    rewrite filter_cons_True by done.
    rewrite (filter_nil (λ kE : string * Entry V, Is kE.2 DELETE_or_POP = false)).
    cbn. by rewrite !Copy_spec.
Qed.

(** * Further properties of the queue *)

(** ** No call panics *)

Lemma merge_lingerTTL g id obj now g' n :
  wf g → merge g id obj now = Ok (g', n) → lingerTTL g' = lingerTTL g.
Proof.
  intros Hwf Hm.
  destruct (merge_result g id obj now Hwf) as (its & n' & g2 & _ & Hm' & _ & Httl & _).
  rewrite Hm in Hm'. by injection Hm' as <- <-.
Qed.

Lemma step_lingerTTL f (op : Op V) now f' (d : list (Entry V)) :
  wf f → step f op now = Ok (f', d) → lingerTTL f' = lingerTTL f.
Proof.
  intros Hwf Hstep. destruct op as [id v|id v|id v t|id| |m]; cbn in Hstep.
  - destruct (Add f id v now) as [[f1 n]|] eqn:Hadd; [|done].
    injection Hstep as <- <-. rewrite Add_merge in Hadd.
    apply merge_lingerTTL in Hadd; [done|by apply wf_with_queue].
  - unfold Update in Hstep.
    destruct (Add f id v now) as [[f1 n]|] eqn:Hadd; [|done].
    injection Hstep as <- <-. rewrite Add_merge in Hadd.
    apply merge_lingerTTL in Hadd; [done|by apply wf_with_queue].
  - destruct (Readd f id v t now) as [[f1 n]|] eqn:Hadd; [|done].
    injection Hstep as <- <-.
    destruct (Readd_cases f id v t now) as [[Hre _]|[Hre _]]; rewrite Hre in Hadd.
    + by injection Hadd as <- <-.
    + apply merge_lingerTTL in Hadd; [done|by apply wf_with_queue].
  - rewrite Delete_spec in Hstep by apply Hwf.
    destruct (items f !! id) as [[e|dd]|]; cbn in Hstep;
      by injection Hstep as <- <-.
  - destruct (Pop f) as [f1 out] eqn:Hpop.
    assert (f' = f1) as -> by (destruct out; by injection Hstep as <- <-).
    unfold Pop in Hpop.
    destruct (Pop_loop (items f) (queue f)) as [[its q] o].
    by injection Hpop as <- <-.
  - destruct (Replace f m now) as [[f1 n]|] eqn:Hrep; [|done].
    injection Hstep as <- <-.
    destruct (Replace_unfold f m now) as (its1 & Htag1 & _ & Hrun);
      [by apply Hwf|].
    rewrite Hrun in Hrep.
    apply Replace_merge_queue in Hrep as (_ & Httl & _); [done|].
    destruct Hwf as (? & ? & ?). unfold wf. cbn. split_and!; [done|lia..].
Qed.

(** X1.  On values that implement [UniqueCopyable] (the ones that
    [checkType] lets through: its panic on any other value is outside the
    model), no sequence of calls on a queue made by [NewFIFO] fails a type
    assertion on an entry: the assertions of [Delete], [Replace] and
    [merge] to a pointer to [entry], and the one of [gc] to a pointer to
    [deletedEntry], always find the implementation they expect.  The state
    stays well formed (a plain entry is tagged Add, Update or Pop, a
    tombstone Delete, the counter is below 256) and the linger time stays
    five minutes. *)
Theorem calls_never_panic (calls : list (Op V * Time)) :
  ∃ f, exec NewFIFO calls = Ok f ∧ wf f ∧ lingerTTL f = five_minutes.
Proof.
  assert (∀ g, wf g → ∃ f, exec g calls = Ok f ∧ wf f ∧ lingerTTL f = lingerTTL g)
    as Hgen.
  { induction calls as [|[op now] calls IH]; intros g Hwf; [by eauto|].
    cbn. destruct (step_ok g op now Hwf) as (g1 & d & Hstep & Hwf1).
    rewrite Hstep. cbn. destruct (IH g1 Hwf1) as (f & Hexec & Hwff & Httl).
    exists f. split_and!; [done|done|].
    rewrite Httl. by eapply step_lingerTTL. }
  destruct (Hgen NewFIFO wf_NewFIFO) as (f & Hexec & Hwf & Httl). by exists f.
Qed.

(** ** The keys of the queue are keys of the map *)

Lemma merge_pending_in_store f id obj now f' n :
  wf f →
  (∀ k, k ∈ queue f → k = id ∨ is_Some (items f !! k)) →
  merge f id obj now = Ok (f', n) →
  pending_in_store f'.
Proof.
  intros Hwf Hpend Hm.
  destruct (merge_result f id obj now Hwf)
    as (its & n' & f'' & Hits & Hm' & _ & _ & _ & Hitems & Hq).
  rewrite Hm in Hm'. injection Hm' as <- <-.
  destruct (merge_items_ok f id obj now (proj1 Hwf))
    as (its2 & n2 & Hits2 & _ & Hframe & Hcase).
  rewrite Hits in Hits2. injection Hits2 as <- <-.
  assert (∀ k, k ∈ queue f → is_Some (its !! k)) as Hits_some.
  { intros k Hk. destruct (decide (k = id)) as [->|Hne].
    - destruct Hcase as [(-> & ? & _)|(e & -> & _)]; [done|by eauto].
    - rewrite Hframe by done. destruct (Hpend k Hk); [done|done]. }
  intros k. rewrite Hq, Hitems. clear Hq Hitems.
  destruct (decide (gcc f = 255)); [|by apply Hits_some].
  intros [Hnot Hk]%list_elem_of_filter.
  destruct (Hits_some k Hk) as [E HE]. rewrite lookup_swept, HE.
  destruct (expired now E) eqn:He; [|by eauto].
  exfalso. apply Hnot. apply elem_of_reclaimed. by eauto.
Qed.

Lemma Pop_loop_suffix its q its' q' (out : PopOutcome V) :
  Pop_loop its q = (its', q', out) →
  q' `suffix_of` q ∧ ∀ k, is_Some (its !! k) → is_Some (its' !! k).
Proof.
  revert its' q' out. induction q as [|id q IH]; intros its' q' out; cbn.
  - intros [= <- <- <-]. done.
  - destruct (its !! id) as [item|] eqn:Hid.
    + destruct (Is item DELETE_or_POP).
      * intros Hloop. destruct (IH _ _ _ Hloop) as [Hsuf Hsome].
        split; [by apply suffix_cons_r|done].
      * intros [= <- <- <-]. split; [by apply suffix_cons_r|].
        intros k Hk. destruct (decide (k = id)) as [->|Hne].
        -- rewrite lookup_insert_eq. by eauto.
        -- by rewrite lookup_insert_ne.
    + intros Hloop. destruct (IH _ _ _ Hloop) as [Hsuf Hsome].
      split; [by apply suffix_cons_r|done].
Qed.

Lemma Replace_merge_pending_in_store now (l : list (string * V)) g
    (ns : list (Entry V)) g' ns' :
  wf g → pending_in_store g → Replace_merge now l (g, ns) = Ok (g', ns') →
  pending_in_store g'.
Proof.
  revert g ns. induction l as [|[id obj] l IH]; intros g ns Hwf Hpend Hrun.
  - by injection Hrun as <- <-.
  - cbn [Replace_merge fst snd] in Hrun.
    pose proof (wf_with_queue g (queue g ++ [id]) Hwf) as Hwf1.
    destruct (merge_result _ id obj now Hwf1) as (its & n & g1 & _ & Hm & Hwf2 & _).
    rewrite Hm in Hrun. cbn in Hrun.
    apply (IH g1 (ns ++ n) Hwf2); [|done].
    apply (merge_pending_in_store _ id obj now g1 n Hwf1); [|done].
    intros k. cbn. intros [Hk|Hk%list_elem_of_singleton]%elem_of_app;
      [right; by apply Hpend|by left].
Qed.

Lemma step_pending_in_store f (op : Op V) now f' (d : list (Entry V)) :
  wf f → pending_in_store f → step f op now = Ok (f', d) → pending_in_store f'.
Proof.
  intros Hwf Hpend Hstep.
  assert (∀ id v q f1 n,
            (∀ k, k ∈ q → k = id ∨ k ∈ queue f) →
            merge (with_queue f q) id v now = Ok (f1, n) →
            pending_in_store f1) as Hmerge.
  { intros id v q f1 n Hq Hm.
    apply (merge_pending_in_store _ id v now f1 n (wf_with_queue f q Hwf)); [|done].
    intros k Hk. destruct (Hq k Hk) as [?|Hin]; [by left|right; by apply Hpend]. }
  assert (∀ id, ∀ k, k ∈ queue f ++ [id] → k = id ∨ k ∈ queue f) as Happ.
  { intros id k [?|?%list_elem_of_singleton]%elem_of_app; [by right|by left]. }
  destruct op as [id v|id v|id v t|id| |m]; cbn in Hstep.
  - destruct (Add f id v now) as [[f1 n]|] eqn:Hadd; [|done].
    injection Hstep as <- <-. rewrite Add_merge in Hadd.
    apply Hmerge in Hadd; [done|].
    destruct (is_live f id); [by right|apply Happ].
  - unfold Update in Hstep.
    destruct (Add f id v now) as [[f1 n]|] eqn:Hadd; [|done].
    injection Hstep as <- <-. rewrite Add_merge in Hadd.
    apply Hmerge in Hadd; [done|].
    destruct (is_live f id); [by right|apply Happ].
  - destruct (Readd f id v t now) as [[f1 n]|] eqn:Hadd; [|done].
    injection Hstep as <- <-.
    destruct (Readd_cases f id v t now) as [[Hre _]|[Hre _]]; rewrite Hre in Hadd.
    + by injection Hadd as <- <-.
    + apply Hmerge in Hadd; [done|].
      destruct (is_stale f id); [apply Happ|by right].
  - rewrite Delete_spec in Hstep by apply Hwf.
    destruct (items f !! id) as [[e|dd]|] eqn:Hid; cbn in Hstep;
      injection Hstep as <- <-; [|done|done].
    intros k Hk. cbn in *. destruct (decide (k = id)) as [->|Hne].
    + rewrite lookup_insert_eq. by eauto.
    + rewrite lookup_insert_ne by done. by apply Hpend.
  - destruct (Pop f) as [f1 out] eqn:Hpop.
    assert (f' = f1) as -> by (destruct out; by injection Hstep as <- <-).
    unfold Pop in Hpop.
    destruct (Pop_loop (items f) (queue f)) as [[its q] o] eqn:Hloop.
    injection Hpop as <- <-.
    destruct (Pop_loop_suffix _ _ _ _ _ Hloop) as [[pre Hsuf] Hsome].
    intros k Hk. cbn in *. apply Hsome, Hpend. rewrite Hsuf.
    apply elem_of_app. by right.
  - destruct (Replace f m now) as [[f1 n]|] eqn:Hrep; [|done].
    injection Hstep as <- <-.
    destruct (Replace_unfold f m now) as (its1 & Htag1 & _ & Hrun);
      [by apply Hwf|].
    rewrite Hrun in Hrep.
    apply Replace_merge_pending_in_store in Hrep; [done| |].
    + destruct Hwf as (? & ? & ?). unfold wf. cbn. split_and!; [done|lia..].
    + intros k Hk. cbn in Hk. by apply elem_of_nil in Hk.
Qed.

(** X2.  The property that the comment on [items] depends on holds in every
    state that calls on a new queue reach: each key of the pending sequence
    has an entry in the map.  So the test [!ok] of [Pop] never fires. *)
Theorem pending_keys_are_stored (calls : list (Op V * Time)) :
  ∃ f, exec NewFIFO calls = Ok f ∧ pending_in_store f.
Proof.
  assert (∀ g, wf g → pending_in_store g →
            ∃ f, exec g calls = Ok f ∧ pending_in_store f) as Hgen.
  { induction calls as [|[op now] calls IH]; intros g Hwf Hpend; [by eauto|].
    cbn. destruct (step_ok g op now Hwf) as (g1 & d & Hstep & Hwf1).
    rewrite Hstep. cbn. apply (IH g1 Hwf1).
    by apply (step_pending_in_store g op now g1 d). }
  apply (Hgen NewFIFO wf_NewFIFO). intros k Hk. cbn in Hk.
  by apply elem_of_nil in Hk.
Qed.

(** ** Which key Pop returns *)

Lemma Pop_loop_spec f q :
  (∃ skipped k rest E,
     q = skipped ++ k :: rest
     ∧ Forall (λ k', is_live f k' = false) skipped
     ∧ items f !! k = Some E
     ∧ live_entry E
     ∧ Pop_loop (items f) q =
         (<[k := popped E]> (items f), rest, Returned (popped E) (Copy (Value E))))
  ∨ (Forall (λ k', is_live f k' = false) q
     ∧ Pop_loop (items f) q = (items f, [], Waiting)).
Proof.
  induction q as [|id q IH]; [right; by split|].
  cbn [Pop_loop]. destruct (is_live f id) eqn:Hlive.
  - left. apply is_live_true in Hlive as (E & HE & Hl).
    exists [], id, q, E. split_and!; [done|done|done|done|].
    rewrite HE. unfold live_entry in Hl. by rewrite Hl.
  - assert (match items f !! id with
            | Some item =>
                if Is item DELETE_or_POP then Pop_loop (items f) q
                else (<[id := PlainEntry (mkEntry (Value item) POP_EVENT)]> (items f),
                      q, Returned (PlainEntry (mkEntry (Value item) POP_EVENT))
                                  (Copy (Value item)))
            | None => Pop_loop (items f) q
            end = Pop_loop (items f) q) as ->.
    { unfold is_live in Hlive. destruct (items f !! id) as [item|]; [|done].
      apply negb_false_iff in Hlive. by rewrite Hlive. }
    destruct IH as [(skipped & k & rest & E & -> & Hsk & HE & Hl & Hloop)|[Hall Hloop]].
    + left. exists (id :: skipped), k, rest, E.
      split_and!; [done|by constructor|done|done|done].
    + right. split; [by constructor|done].
Qed.

(** X3.  [Pop] serves the pending sequence in order: it returns the copy
    of the value of the first pending key whose entry is live, tags that
    entry Pop, hands it to the carrier and leaves pending the keys behind
    it; the keys before it, whose entries are missing or tagged Delete or
    Pop, are dropped.  It waits exactly when no pending key is live, having
    emptied the pending sequence and changed nothing else. *)
Theorem Pop_first_live f :
  (∃ skipped k rest E,
     queue f = skipped ++ k :: rest
     ∧ Forall (λ k', is_live f k' = false) skipped
     ∧ items f !! k = Some E
     ∧ live_entry E
     ∧ Pop f = (mkFIFO (<[k := popped E]> (items f)) rest (gcc f) (lingerTTL f),
                Returned (popped E) (Copy (Value E))))
  ∨ (Forall (λ k', is_live f k' = false) (queue f)
     ∧ Pop f = (mkFIFO (items f) [] (gcc f) (lingerTTL f), Waiting)).
Proof.
  unfold Pop.
  destruct (Pop_loop_spec f (queue f))
    as [(skipped & k & rest & E & Hq & Hsk & HE & Hl & ->)|[Hall ->]].
  - left. by exists skipped, k, rest, E.
  - by right.
Qed.

(** ** What Get finds after a merge *)

Lemma Get_of_entry f k E :
  items f !! k = Some E → live_entry E → Get f k = Some (Value E).
Proof.
  intros HE Hl. apply Get_Some. exists E. split_and!; [done|done|].
  by rewrite Copy_spec.
Qed.

Lemma merge_Get f K v now f' n :
  wf f → merge f K v now = Ok (f', n) →
  (unchanged_hidden f K v = true →
     n = [] ∧ hidden f' K ∧ kept_or_reclaimed now (items f) (items f') K)
  ∧ (unchanged_hidden f K v = false →
       ∃ E, items f' !! K = Some E ∧ live_entry E ∧ Value E = v).
Proof.
  intros Hwf Hm.
  destruct (merge_result f K v now Hwf)
    as (its & n' & f'' & Hits & Hm' & _ & _ & _ & Hitems & _).
  rewrite Hm in Hm'. injection Hm' as <- <-.
  assert (∀ t, t = ADD_EVENT ∨ t = UPDATE_EVENT →
            its = <[K := PlainEntry (mkEntry (Copy v) t)]> (items f) →
            ∃ E, items f' !! K = Some E ∧ live_entry E ∧ Value E = v) as Hnew.
  { intros t Ht ->. exists (PlainEntry (mkEntry (Copy v) t)). split_and!.
    - rewrite Hitems. apply lookup_kept_decide; [apply lookup_insert_eq|done].
    - by destruct Ht as [-> | ->].
    - apply Copy_spec. }
  unfold unchanged_hidden. destruct (items f !! K) as [E|] eqn:HK.
  - pose proof (proj1 Hwf K E HK) as HE.
    destruct (DeepEqual v (Value E)) eqn:Heq.
    + pose proof (proj1 (DeepEqual_spec v (Value E)) Heq) as Hv.
      rewrite (merge_items_unchanged f K v now E) in Hits;
        [|done| |done].
      2:{ destruct (Is E DELETE_EVENT); [by left|right; by rewrite Hv]. }
      injection Hits as <- <-.
      rewrite andb_true_r. split.
      * intros Hhid. split; [done|].
        assert (kept_or_reclaimed now (items f) (items f') K) as Hkept.
        { unfold kept_or_reclaimed. rewrite Hitems.
          destruct (decide (gcc f = 255)); [|by left].
          rewrite lookup_swept, HK.
          destruct (expired now E) eqn:He; [right; by eauto|by left]. }
        split; [|done].
        apply (kept_or_reclaimed_hidden now f f' K Hkept).
        intros E'. rewrite HK. by intros [= <-].
      * intros Hlive. exists E. split_and!; [|done|done].
        rewrite Hitems. apply lookup_kept_decide; [done|].
        apply not_DELETE_not_expired. by apply live_entry_not_DELETE.
    + rewrite andb_false_r. split; [done|]. intros _.
      destruct (Is E DELETE_EVENT) eqn:Hdel.
      * rewrite (merge_items_update f K v now E) in Hits by auto.
        injection Hits as <- <-. apply (Hnew UPDATE_EVENT); auto.
      * destruct (Is_DELETE_Plain E HE Hdel) as [ent ->].
        destruct (decide (GetUID (value ent) = GetUID v)) as [Huid|Huid].
        -- rewrite (merge_items_update f K v now (PlainEntry ent)) in Hits by auto.
           injection Hits as <- <-. apply (Hnew UPDATE_EVENT); auto.
        -- rewrite (merge_items_hidden_delete f K v now ent) in Hits by auto.
           injection Hits as <- <-. apply (Hnew ADD_EVENT); auto.
  - split; [done|]. intros _. rewrite merge_items_absent in Hits by done.
    injection Hits as <- <-. apply (Hnew ADD_EVENT); auto.
Qed.

Lemma merge_stores_nothing f K v now f' n :
  wf f → merge f K v now = Ok (f', n) → unchanged_hidden f K v = true →
  gcc f ≠ 255 → items f' = items f.
Proof.
  intros Hwf Hm Hu H255.
  destruct (merge_result f K v now Hwf)
    as (its & n' & f'' & Hits & Hm' & _ & _ & _ & Hitems & _).
  rewrite Hm in Hm'. injection Hm' as <- <-.
  unfold unchanged_hidden in Hu. destruct (items f !! K) as [E|] eqn:HK; [|done].
  apply andb_true_iff in Hu as [Hstale Heq].
  pose proof (proj1 (DeepEqual_spec v (Value E)) Heq) as Hv.
  rewrite (merge_items_unchanged f K v now E) in Hits; [|done| |done].
  2:{ destruct (Is E DELETE_EVENT); [by left|right; by rewrite Hv]. }
  injection Hits as <- <-. rewrite Hitems. by rewrite decide_False.
Qed.

(** X4.  [Add(K, v)] followed by [Get(K)] finds [v], and [K] is in
    [ContainedIDs], with one exception that the code makes: when [K] has
    an entry tagged Delete or Pop whose value is deep-equal to [v], [merge]
    stores nothing and notifies nothing, and [Get(K)] finds nothing and
    [K] is not in [ContainedIDs].  In that case the entry of [K] stays as
    it was, tag included, unless it is an expired tombstone that the sweep
    of this merge reclaims; when the merge is not the 256th the whole map
    stays as it was. *)
Theorem Add_then_Get f K v now :
  wf f →
  ∃ f' n, Add f K v now = Ok (f', n)
    ∧ (unchanged_hidden f K v = true →
         n = [] ∧ Get f' K = None ∧ (K ∉ ContainedIDs f')
         ∧ kept_or_reclaimed now (items f) (items f') K
         ∧ (gcc f ≠ 255 → items f' = items f))
    ∧ (unchanged_hidden f K v = false →
         Get f' K = Some v ∧ K ∈ ContainedIDs f').
Proof.
  intros Hwf. destruct (Add_ok f K v now Hwf) as (f' & n & Hadd).
  exists f', n. split; [done|]. rewrite Add_merge in Hadd.
  destruct (merge_Get _ K v now f' n (wf_with_queue f _ Hwf) Hadd) as [Hhid Hlive].
  split.
  - intros Hu. destruct (Hhid Hu) as (-> & Hh & Hkept). split_and!; [done| |  |done|].
    + by apply Get_hidden.
    + rewrite elem_of_ContainedIDs, live_not_hidden. by intros Hn; apply Hn.
    + intros H255.
      by apply (merge_stores_nothing _ K v now f' [] (wf_with_queue f _ Hwf) Hadd).
  - intros Hu. destruct (Hlive Hu) as (E & HE & Hl & <-).
    split; [by apply Get_of_entry|]. apply elem_of_ContainedIDs. by exists E.
Qed.

(** ** Add, Readd and the next Pop *)

Lemma merge_queue g id obj now g' n :
  wf g → merge g id obj now = Ok (g', n) →
  queue g' `sublist_of` queue g ∧ (gcc g ≠ 255 → queue g' = queue g).
Proof.
  intros Hwf Hm.
  destruct (merge_result g id obj now Hwf)
    as (its & n' & g2 & _ & Hm' & _ & _ & _ & _ & Hq).
  rewrite Hm in Hm'. injection Hm' as <- <-. rewrite Hq. clear Hq.
  destruct (decide (gcc g = 255)); split; [apply sublist_filter|done|done|done].
Qed.

Lemma sublist_singleton_elem (l : list string) (x : string) :
  l `sublist_of` [x] → x ∈ l → l = [x].
Proof.
  intros Hsub Hx. pose proof (sublist_length _ _ Hsub) as Hlen.
  destruct l as [|y [|z l]]; cbn in Hlen; [by apply elem_of_nil in Hx| |lia].
  by apply list_elem_of_singleton in Hx as ->.
Qed.

Lemma Pop_singleton f K :
  queue f = [K] →
  (hidden f K → Pop f = (with_queue f [], Waiting))
  ∧ (∀ E, items f !! K = Some E → live_entry E →
       Pop f = (mkFIFO (<[K := popped E]> (items f)) [] (gcc f) (lingerTTL f),
                Returned (popped E) (Copy (Value E)))).
Proof.
  intros Hq. unfold Pop. rewrite Hq. cbn. split.
  - intros Hh. destruct (items f !! K) as [E|] eqn:HK; [|done].
    by rewrite (Hh E HK).
  - intros E -> Hl. unfold live_entry in Hl. by rewrite Hl.
Qed.

(** After a merge of [K] that has appended it to an empty queue: the queue
    is [K] alone when [K] has an entry. *)
Lemma merge_enqueued_alone f K v now f' n :
  wf f → merge (with_queue f [K]) K v now = Ok (f', n) →
  is_Some (items f' !! K) → queue f' = [K].
Proof.
  intros Hwf Hm Hsome.
  pose proof (wf_with_queue f [K] Hwf) as Hwf0.
  destruct (merge_queue _ K v now f' n Hwf0 Hm) as [Hsub _].
  apply sublist_singleton_elem; [done|].
  destruct (merge_pending _ K v now f' n K Hwf0 Hm) as [?|Hnone]; [cbn; left|done|].
  rewrite Hnone in Hsome. by destruct Hsome.
Qed.

(** X5.  On a queue whose pending sequence is empty, [Add(K, v)] followed
    by [Pop] returns [v] and leaves the queue empty again, except in the
    two cases where the code queues nothing that [Pop] can serve: [K] was
    live already, so [Add] does not enqueue it; or [K] had an entry tagged
    Delete or Pop with a value deep-equal to [v], so [K] is enqueued but
    its entry stays hidden.  In both cases [Pop] waits. *)
Theorem Add_then_Pop f K v now :
  wf f →
  queue f = [] →
  ∃ f1 n, Add f K v now = Ok (f1, n)
    ∧ (is_live f K = true → Pop f1 = (f1, Waiting))
    ∧ (unchanged_hidden f K v = true → Pop f1 = (with_queue f1 [], Waiting))
    ∧ (is_live f K = false → unchanged_hidden f K v = false →
         ∃ f2 popEvent, Pop f1 = (f2, Returned popEvent v)
           ∧ queue f2 = []
           ∧ Get f2 K = None).
Proof.
  intros Hwf Hq. destruct (Add_ok f K v now Hwf) as (f1 & n & Hadd).
  exists f1, n. split; [done|]. rewrite Add_merge, Hq in Hadd.
  split_and!.
  - intros Hlive. rewrite Hlive in Hadd. apply Pop_empty.
    destruct (merge_queue _ K v now f1 n (wf_with_queue f [] Hwf) Hadd) as [Hsub _].
    cbn in Hsub. by apply sublist_nil_r in Hsub.
  - intros Hu.
    destruct (merge_Get _ K v now f1 n (wf_with_queue f _ Hwf) Hadd) as [Hhid _].
    destruct (Hhid Hu) as (_ & Hh & _).
    destruct (merge_queue _ K v now f1 n (wf_with_queue f _ Hwf) Hadd) as [Hsub _].
    destruct (Pop_loop_spec f1 (queue f1))
      as [(skipped & k & rest & E & Hq1 & _ & HE & Hl & _)|[_ Hloop]].
    + exfalso. assert (k = K) as ->.
      { assert (k ∈ queue f1) as Hk
          by (rewrite Hq1; apply elem_of_app; right; left).
        pose proof (elem_of_sublist _ _ _ Hk Hsub) as Hk'. cbn in Hk'.
        destruct (is_live f K); cbn in Hk'.
        - by apply elem_of_nil in Hk'.
        - by apply list_elem_of_singleton in Hk'. }
      specialize (Hh E HE). unfold live_entry in Hl. congruence.
    + unfold Pop. rewrite Hloop. done.
  - intros Hlive Hu. rewrite Hlive in Hadd. cbn in Hadd.
    destruct (merge_Get _ K v now f1 n (wf_with_queue f _ Hwf) Hadd) as [_ Hl].
    destruct (Hl Hu) as (E & HE & HlE & HvE).
    assert (queue f1 = [K]) as Hq1.
    { apply (merge_enqueued_alone f K v now f1 n Hwf Hadd). by eauto. }
    destruct (Pop_singleton f1 K Hq1) as [_ Hpop].
    rewrite (Hpop E HE HlE), Copy_spec, HvE.
    eexists _, _. split; [done|]. split; [done|].
    apply Get_hidden. intros E'. cbn. rewrite lookup_insert_eq. by intros [= <-].
Qed.

(** X6.  [Readd] of a key that has no entry stores the value as an
    Add-tagged entry and notifies it, as [Add] does, but does not append
    the key to the pending sequence: [Get] finds the value, and the key is
    not pending.  [Add] of the same key in the same state leaves it
    pending. *)
Theorem Readd_absent_not_enqueued f K v t now :
  wf f →
  pending_in_store f →
  items f !! K = None →
  (∃ f', Readd f K v t now = Ok (f', [PlainEntry (mkEntry (Copy v) ADD_EVENT)])
     ∧ Get f' K = Some v
     ∧ queue f' `sublist_of` queue f
     ∧ K ∉ queue f')
  ∧ (∃ f'' n, Add f K v now = Ok (f'', n) ∧ Get f'' K = Some v ∧ K ∈ queue f'').
Proof.
  intros Hwf Hpend HK.
  assert (unchanged_hidden f K v = false) as Hu
    by (unfold unchanged_hidden; by rewrite HK).
  assert (K ∉ queue f) as HKq.
  { intros Hin. destruct (Hpend K Hin) as [E HE]. congruence. }
  split.
  - assert (Readd f K v t now = merge f K v now) as Hre
      by (unfold Readd; by rewrite HK).
    destruct (merge_result f K v now Hwf) as (its & n & f' & Hits & Hm & _).
    rewrite merge_items_absent in Hits by done. injection Hits as <- <-.
    exists f'. rewrite Hre. split; [done|].
    destruct (merge_Get f K v now f' _ Hwf Hm) as [_ Hl].
    destruct (Hl Hu) as (E & HE & HlE & HvE).
    destruct (merge_queue f K v now f' _ Hwf Hm) as [Hsub _].
    split_and!; [rewrite <- HvE; by apply Get_of_entry|done|].
    intros Hin. apply HKq. by apply (elem_of_sublist _ _ _ Hin Hsub).
  - destruct (Add_ok f K v now Hwf) as (f'' & n & Hadd).
    exists f'', n. split; [done|]. rewrite Add_merge in Hadd.
    assert (is_live f K = false) as Hlive by (unfold is_live; by rewrite HK).
    rewrite Hlive in Hadd.
    pose proof (wf_with_queue f (queue f ++ [K]) Hwf) as Hwf0.
    destruct (merge_Get _ K v now f'' n Hwf0 Hadd) as [_ Hl].
    destruct (Hl Hu) as (E & HE & HlE & HvE).
    split; [rewrite <- HvE; by apply Get_of_entry|].
    destruct (merge_pending _ K v now f'' n K Hwf0 Hadd) as [?|Hnone]; [|done|].
    + cbn. apply elem_of_app. right. left.
    + congruence.
Qed.

(** X7.  The retry of a consumer.  On a key whose entry is tagged Pop,
    [Readd(K, v, Pop)] passes the guard and appends [K] to the pending
    sequence.  If [v] is the value that was popped, nothing is stored or
    notified, the entry stays tagged Pop, [Get(K)] finds nothing, and (on
    an otherwise empty queue) the next [Pop] drops [K] and waits.  If [v]
    is another value, [Get(K)] finds [v], and on an otherwise empty queue
    the next [Pop] returns [v]. *)
Theorem Readd_after_Pop f K v v0 now :
  wf f →
  items f !! K = Some (PlainEntry (mkEntry v0 POP_EVENT)) →
  ∃ f' n, Readd f K v POP_EVENT now = Ok (f', n)
    ∧ K ∈ queue f'
    ∧ (gcc f ≠ 255 → queue f' = queue f ++ [K])
    ∧ (v = v0 →
         n = []
         ∧ items f' !! K = Some (PlainEntry (mkEntry v0 POP_EVENT))
         ∧ Get f' K = None
         ∧ (queue f = [] → Pop f' = (with_queue f' [], Waiting)))
    ∧ (v ≠ v0 →
         Get f' K = Some v
         ∧ (queue f = [] → ∃ f2 popEvent, Pop f' = (f2, Returned popEvent v))).
Proof.
  intros Hwf HK.
  assert (Readd f K v POP_EVENT now = merge (with_queue f (queue f ++ [K])) K v now)
    as Hre by (unfold Readd; by rewrite HK).
  pose proof (wf_with_queue f (queue f ++ [K]) Hwf) as Hwf0.
  destruct (merge_result _ K v now Hwf0) as (its & n & f' & _ & Hm & _).
  exists f', n. rewrite Hre. split; [done|].
  destruct (merge_Get _ K v now f' n Hwf0 Hm) as [Hhid Hlive].
  destruct (merge_queue _ K v now f' n Hwf0 Hm) as [Hsub Hexact].
  assert (unchanged_hidden (with_queue f (queue f ++ [K])) K v = DeepEqual v v0) as Hu
    by (unfold unchanged_hidden; cbn; by rewrite HK).
  assert (v = v0 → items f' !! K = Some (PlainEntry (mkEntry v0 POP_EVENT))) as Hsame.
  { intros ->. destruct Hhid as (_ & _ & Hkept).
    { rewrite Hu. by apply DeepEqual_spec. }
    by apply (kept_or_reclaimed_fresh now _ _ K _ Hkept HK). }
  assert (v ≠ v0 → ∃ E, items f' !! K = Some E ∧ live_entry E ∧ Value E = v) as Hdiff.
  { intros Hne. apply Hlive. rewrite Hu.
    destruct (DeepEqual v v0) eqn:Heq; [|done].
    by apply DeepEqual_spec in Heq. }
  assert (is_Some (items f' !! K)) as Hsome.
  { destruct (DeepEqual v v0) eqn:Hde.
    - apply DeepEqual_spec in Hde. rewrite Hsame; by eauto.
    - destruct Hdiff as (E & -> & _); [|by eauto].
      intros Heq%DeepEqual_spec. congruence. }
  assert (queue f = [] → queue f' = [K]) as Halone.
  { intros Hq. rewrite Hq in Hm. by apply (merge_enqueued_alone f K v now f' n). }
  split_and!.
  - destruct (merge_pending _ K v now f' n K Hwf0 Hm) as [?|Hnone]; [|done|].
    + cbn. apply elem_of_app. right. left.
    + rewrite Hnone in Hsome. by destruct Hsome.
  - intros H255. by apply Hexact.
  - intros Heq. pose proof (Hsame Heq) as HK'.
    assert (hidden f' K) as Hh by (intros E'; rewrite HK'; by intros [= <-]).
    destruct Hhid as (-> & _ & _); [rewrite Hu, Heq; by apply DeepEqual_spec|].
    split_and!; [done|done|by apply Get_hidden|].
    intros Hq. by apply (Pop_singleton f' K (Halone Hq)).
  - intros Hne. destruct (Hdiff Hne) as (E & HE & HlE & HvE).
    split; [rewrite <- HvE; by apply Get_of_entry|]. intros Hq.
    destruct (Pop_singleton f' K (Halone Hq)) as [_ Hpop].
    rewrite (Hpop E HE HlE), Copy_spec, HvE. by eauto.
Qed.

(** ** Delete twice *)

(** X8.  [Delete] is idempotent: a second [Delete] of the same key, at any
    later time, changes nothing and notifies nothing.  In particular it
    does not refresh the expiration of the tombstone. *)
Theorem Delete_twice f K now now' :
  tags_ok (items f) →
  ∃ f1 n, Delete f K now = Ok (f1, n)
    ∧ Delete f1 K now' = Ok (f1, None)
    ∧ carrier (None : option (Entry V)) = [].
Proof.
  intros Htag. rewrite Delete_spec by done.
  destruct (items f !! K) as [[e|d]|] eqn:HK.
  - eexists _, _. split; [done|]. split; [|done].
    unfold Delete. cbn. by rewrite lookup_insert_eq.
  - exists f, None. split; [done|]. split; [|done].
    rewrite Delete_spec by done. by rewrite HK.
  - exists f, None. split; [done|]. split; [|done].
    rewrite Delete_spec by done. by rewrite HK.
Qed.

(** ** The sweep and the reads *)

Lemma map_to_list_filter_perm {A : Type} (P : string * A → Prop)
    `{!∀ x, Decision (P x)} (m : gmap string A) :
  map_to_list (filter P m) ≡ₚ filter P (map_to_list m).
Proof.
  apply NoDup_Permutation.
  - apply NoDup_map_to_list.
  - apply NoDup_filter, NoDup_map_to_list.
  - intros [k x]. rewrite elem_of_map_to_list, map_lookup_filter_Some.
    rewrite list_elem_of_filter, elem_of_map_to_list.
    split; intros [? ?]; by split.
Qed.

Lemma filter_all {A : Type} (P : A → Prop) `{!∀ x, Decision (P x)} (l : list A) :
  (∀ x, x ∈ l → P x) → filter P l = l.
Proof.
  induction l as [|x l IH]; intros Hall; [done|].
  rewrite filter_cons_True by (apply Hall; left).
  f_equal. apply IH. intros y Hy. apply Hall. by right.
Qed.

Lemma expired_hidden now E : expired now E = true → Is E DELETE_or_POP = true.
Proof. intros He. by apply Is_DELETE_weaken, (expired_Is_DELETE now). Qed.

Lemma live_filter_swept now its :
  filter (λ kE : string * Entry V, Is kE.2 DELETE_or_POP = false)
         (map_to_list (swept now its))
  ≡ₚ filter (λ kE : string * Entry V, Is kE.2 DELETE_or_POP = false)
            (map_to_list its).
Proof.
  unfold swept. rewrite map_to_list_filter_perm.
  rewrite list_filter_filter_l; [done|].
  intros [k E] Hl. cbn in *.
  destruct (expired now E) eqn:He; [|done].
  apply expired_hidden in He. congruence.
Qed.

(** X9.  The sweep is invisible to the reads and spares the live keys:
    after [gc], [Get] finds for every key what it found before,
    [ContainedIDs] is the same set, [List] holds the same values, and every
    pending key whose entry is live is still pending. *)
Theorem gc_preserves_reads f now :
  tags_ok (items f) →
  ∃ f', gc f now = Ok f'
    ∧ (∀ k, Get f' k = Get f k)
    ∧ ContainedIDs f' = ContainedIDs f
    ∧ List f' ≡ₚ List f
    ∧ (∀ k, k ∈ queue f → is_live f k = true → k ∈ queue f').
Proof.
  intros Htag. rewrite gc_spec by done. eexists. split; [done|].
  assert (∀ k, Get (mkFIFO (swept now (items f)) [] 0 0) k = Get f k) as Hget.
  { intros k. unfold Get. cbn. rewrite lookup_swept.
    destruct (items f !! k) as [E|]; [|done].
    destruct (expired now E) eqn:He; [|done].
    by rewrite (expired_hidden now E He). }
  split_and!.
  - intros k. rewrite <- Hget. done.
  - apply set_eq. intros k. rewrite !elem_of_ContainedIDs, !live_not_hidden.
    rewrite <- !Get_hidden. specialize (Hget k). unfold Get in *. cbn in *.
    by rewrite Hget.
  - rewrite !List_perm. cbn. by rewrite live_filter_swept.
  - intros k Hk Hlive. cbn. apply list_elem_of_filter. split; [|done].
    rewrite elem_of_reclaimed. intros (E & HE & He).
    apply expired_hidden in He. unfold is_live in Hlive. rewrite HE, He in Hlive.
    done.
Qed.

(** X10.  The sweep is idempotent: after [gc] at [now] no entry of the map
    is an expired tombstone, and a second [gc] at the same time returns the
    state unchanged. *)
Theorem gc_idempotent f now :
  tags_ok (items f) →
  ∃ f1, gc f now = Ok f1
    ∧ gc f1 now = Ok f1
    ∧ ∀ k E, items f1 !! k = Some E → expired now E = false.
Proof.
  intros Htag. rewrite gc_spec by done. eexists. split; [done|].
  assert (∀ k E, swept now (items f) !! k = Some E → expired now E = false) as Hnone.
  { intros k E. rewrite lookup_swept. destruct (items f !! k) as [E'|]; [|done].
    destruct (expired now E') eqn:He; [done|]. by intros [= <-]. }
  split; [|done].
  rewrite gc_spec by (by apply tags_ok_swept). cbn. f_equal.
  assert (swept now (swept now (items f)) = swept now (items f)) as ->.
  { apply map_eq. intros k. rewrite (lookup_swept now (swept now (items f))).
    destruct (swept now (items f) !! k) as [E|] eqn:Hk; [|done].
    by rewrite (Hnone k E Hk). }
  f_equal. apply filter_all. intros k _.
  rewrite elem_of_reclaimed. intros (E & HE & He).
  rewrite (Hnone k E HE) in He. done.
Qed.

Lemma ContainedIDs_dom f :
  ContainedIDs f =
    dom (filter (λ kE : string * Entry V, Is kE.2 DELETE_or_POP = false) (items f)).
Proof.
  apply set_eq. intros k. rewrite elem_of_ContainedIDs, elem_of_dom.
  unfold live, live_entry, is_Some.
  setoid_rewrite map_lookup_filter_Some. done.
Qed.

(** X11.  The three reads agree with one another: [ContainedIDs] is the
    set of the keys for which [Get] finds a value, [List] holds exactly the
    values that [Get] finds, and it has one element for each key of
    [ContainedIDs]. *)
Theorem reads_agree f :
  (∀ k, k ∈ ContainedIDs f ↔ is_Some (Get f k))
  ∧ (∀ v, v ∈ List f ↔ ∃ k, Get f k = Some v)
  ∧ length (List f) = size (ContainedIDs f).
Proof.
  split_and!.
  - intros k. rewrite elem_of_ContainedIDs. unfold is_Some.
    setoid_rewrite Get_Some. unfold live. split.
    + intros (E & HE & Hl). by exists (Copy (Value E)), E.
    + intros (v & E & HE & Hl & _). by exists E.
  - intros v. rewrite elem_of_List. setoid_rewrite Get_Some. done.
  - rewrite ContainedIDs_dom, size_dom, <- length_map_to_list.
    rewrite List_perm, length_fmap. by rewrite map_to_list_filter_perm.
Qed.

(** ** How long a tombstone stays *)

Lemma step_tombstone f (op : Op V) now f' (dl : list (Entry V)) K
    (d : deletedEntry V) :
  wf f → items f !! K = Some (Tombstone d) → merges op K = false →
  step f op now = Ok (f', dl) →
  kept_or_reclaimed now (items f) (items f') K.
Proof.
  intros Hwf HK Hm Hstep.
  pose proof (Tombstone_Is_DELETE d (proj1 Hwf K _ HK)) as Hdel.
  assert (hidden f K) as Hh.
  { intros E. rewrite HK. intros [= <-]. by apply Is_DELETE_weaken. }
  destruct op as [id v|id v|id v t|id| |m].
  - by apply (step_frame f _ now f' dl K Hwf Hstep).
  - by apply (step_frame f _ now f' dl K Hwf Hstep).
  - by apply (step_frame f _ now f' dl K Hwf Hstep).
  - destruct (decide (id = K)) as [->|Hne].
    + cbn in Hstep. rewrite Delete_spec, HK in Hstep by apply Hwf.
      injection Hstep as <- <-. by left.
    + apply (step_frame f _ now f' dl K Hwf Hstep); [|done].
      cbn. by apply bool_decide_eq_false.
  - by apply (step_frame f _ now f' dl K Hwf Hstep).
  - cbn in Hstep, Hm. apply bool_decide_eq_false in Hm.
    destruct (Replace f m now) as [[f1 n]|] eqn:Hrep; [|done].
    injection Hstep as <- <-.
    destruct (Replace_unfold f m now) as (its1 & Htag1 & Hlook & Hrun);
      [by apply Hwf|].
    rewrite Hrun in Hrep.
    apply (Replace_merge_frame now _ _ _ _ _ K) in Hrep.
    + unfold kept_or_reclaimed in *. cbn in Hrep.
      assert (its1 !! K = items f !! K) as Heq.
      { rewrite Hlook, HK. unfold doomed. rewrite Hdel.
        by rewrite andb_false_r. }
      by rewrite Heq in Hrep.
    + destruct Hwf as (? & ? & ?). unfold wf. cbn. split_and!; [done|lia..].
    + by rewrite range_keys.
Qed.

(** X12.  A tombstone stays at least until its expiration: through every
    sequence of calls made no later than the expiration and holding no
    [Add], [Update] or [Readd] of the key and no [Replace] whose map holds
    the key, the tombstone is still the entry of the key, whatever sweeps
    have run; another [Delete] of the key does not touch it. *)
Theorem tombstone_lingers f K (d : deletedEntry V) (calls : list (Op V * Time)) f' :
  wf f →
  items f !! K = Some (Tombstone d) →
  (∀ op now, (op, now) ∈ calls → merges op K = false ∧ now ≤ expiration d) →
  exec f calls = Ok f' →
  items f' !! K = Some (Tombstone d).
Proof.
  revert f. induction calls as [|[op now] calls IH]; intros f Hwf HK Hcalls Hexec.
  - by injection Hexec as <-.
  - cbn in Hexec. destruct (step_ok f op now Hwf) as (f1 & dl & Hstep & Hwf1).
    rewrite Hstep in Hexec. cbn in Hexec.
    destruct (Hcalls op now) as [Hm Hnow]; [left|].
    apply (IH f1); [done| | |done].
    + apply (kept_or_reclaimed_fresh now (items f) _ K (Tombstone d)); [|done|].
      * by apply (step_tombstone f op now f1 dl K d).
      * cbn. apply andb_false_iff. right. apply Z.ltb_ge. lia.
    + intros op' now' Hin. apply Hcalls. by right.
Qed.

(** ** Replace and the visible state *)

Lemma range_empty {A : Type} : range (∅ : gmap string A) = [].
Proof.
  apply Permutation_nil_r. by rewrite (range_perm A ∅), map_to_list_empty.
Qed.

(** X13.  [Replace] with an empty map deletes everything: every entry not
    tagged Delete becomes a tombstone expiring at [now + lingerTTL] and is
    notified (and nothing else is notified), the tombstones there were
    stay, the pending sequence is empty, no merge is counted, and the
    three reads see nothing. *)
Theorem Replace_empty f now :
  wf f →
  ∃ f' ns, Replace f ∅ now = Ok (f', ns)
    ∧ queue f' = []
    ∧ gcc f' = gcc f
    ∧ (∀ k, items f' !! k =
         match items f !! k with
         | Some E => Some (if Is E DELETE_EVENT then E
                           else tombstone_of (now + lingerTTL f) E)
         | None => None
         end)
    ∧ (∀ t, t ∈ ns ↔
         ∃ k E, items f !! k = Some E ∧ Is E DELETE_EVENT = false
                ∧ t = tombstone_of (now + lingerTTL f) E)
    ∧ (∀ k, Get f' k = None)
    ∧ ContainedIDs f' = ∅
    ∧ List f' = [].
Proof.
  intros Hwf.
  destruct (Replace_unfold f ∅ now (proj1 Hwf)) as (its1 & Htag1 & Hlook & Hrun).
  rewrite range_empty in Hrun. cbn in Hrun.
  eexists _, _. split; [exact Hrun|]. cbn.
  assert (∀ k E, doomed (∅ : gmap string V) k E = negb (Is E DELETE_EVENT)) as Hdoom.
  { intros k E. unfold doomed. by rewrite lookup_empty, bool_decide_eq_true_2. }
  assert (∀ k, hidden (mkFIFO its1 [] (gcc f) (lingerTTL f)) k) as Hhid.
  { intros k E. cbn. rewrite Hlook. destruct (items f !! k) as [E0|]; [|done].
    intros [= <-]. rewrite Hdoom. destruct (Is E0 DELETE_EVENT) eqn:Hdel; cbn.
    - by apply Is_DELETE_weaken.
    - done. }
  split_and!; [done|done| | | | |].
  - intros k. rewrite Hlook. destruct (items f !! k) as [E|]; [|done].
    rewrite Hdoom. by destruct (Is E DELETE_EVENT).
  - intros t. unfold tombstones. rewrite list_elem_of_fmap. split.
    + intros ([k E] & -> & [HD HE%range_elem_of]%list_elem_of_filter).
      cbn in HD. rewrite Hdoom in HD. apply negb_true_iff in HD.
      by exists k, E.
    + intros (k & E & HE & Hdel & ->). exists (k, E). split; [done|].
      apply list_elem_of_filter. split; [|by apply range_elem_of].
      cbn. rewrite Hdoom, Hdel. done.
  - intros k. by apply Get_hidden.
  - apply set_eq. intros k. rewrite elem_of_ContainedIDs, live_not_hidden.
    split; [intros Hn; by destruct Hn|]. intros Hemp.
    by apply not_elem_of_empty in Hemp.
  - apply elem_of_nil_inv. intros v Hv. apply elem_of_List in Hv as (k & E & HE & Hl & _).
    specialize (Hhid k E HE). unfold live_entry in Hl. congruence.
Qed.

(** X14.  After [Replace(newState)] the visible keys are keys of
    [newState]: every key that [ContainedIDs] holds is in the map given.
    For a pair [(k, v)] of [newState], [Get(k)] finds [v] and [k] is
    pending, unless [k] had an entry tagged Delete or Pop with a value
    deep-equal to [v] (which [merge] leaves as it is). *)
Theorem Replace_visible f (m : gmap string V) now :
  wf f →
  ∃ f' ns, Replace f m now = Ok (f', ns)
    ∧ (∀ k, k ∈ ContainedIDs f' → is_Some (m !! k))
    ∧ (∀ k v, m !! k = Some v → unchanged_hidden f k v = false →
         Get f' k = Some v ∧ k ∈ queue f').
Proof.
  intros Hwf. pose proof Hwf as (Htag & Hg & Httl).
  destruct (Replace_unfold f m now Htag) as (its1 & Htag1 & Hlook & Hunfold).
  set (g0 := mkFIFO its1 [] (gcc f) (lingerTTL f)) in *.
  set (tombs := tombstones m (now + lingerTTL f) (range (items f))) in *.
  assert (wf g0) as Hwf0 by (unfold wf; cbn; split_and!; [done|lia..]).
  destruct (Replace_merge_ok now (range m) g0 tombs Hwf0) as (f' & ns & Hrun & Hwf').
  exists f', ns. rewrite Hunfold. split; [done|]. split.
  - intros k Hk. destruct (m !! k) as [v|] eqn:Hmk; [by eauto|]. exfalso.
    apply elem_of_ContainedIDs, live_not_hidden in Hk. apply Hk.
    apply (kept_or_reclaimed_hidden now g0 f' k).
    + apply (Replace_merge_frame now (range m) g0 tombs f' ns k Hwf0 Hrun).
      rewrite range_keys, Hmk. by intros [? ?].
    + intros E. cbn. rewrite Hlook. destruct (items f !! k) as [E0|]; [|done].
      intros [= <-]. unfold doomed. rewrite Hmk, bool_decide_eq_true_2 by done.
      cbn. destruct (Is E0 DELETE_EVENT) eqn:Hdel; cbn; [|done].
      by apply Is_DELETE_weaken.
  - intros k v Hmk Hu.
    destruct (Replace_merge_each now (range m) g0 tombs f' ns k v)
      as (gk & gk' & n & Hwfk & _ & Hkept & Hmerge & Hkept' & _ & HJ);
      [done|apply range_NoDup|done|by apply range_elem_of|].
    assert (its1 !! k = items f !! k) as Hsame.
    { rewrite Hlook. destruct (items f !! k) as [E|]; [|done].
      unfold doomed. rewrite bool_decide_eq_false_2; [done|]. by rewrite Hmk. }
    assert (unchanged_hidden (with_queue gk (queue gk ++ [k])) k v = false) as Huk.
    { unfold unchanged_hidden in *. cbn.
      destruct Hkept as [->|[-> _]]; [|done]. cbn. by rewrite Hsame. }
    destruct (merge_Get _ k v now gk' n (wf_with_queue gk _ Hwfk) Hmerge) as [_ Hl].
    destruct (Hl Huk) as (E & HE & HlE & HvE).
    assert (items f' !! k = Some E) as HE'.
    { apply (kept_or_reclaimed_fresh now _ _ k E Hkept' HE).
      apply not_DELETE_not_expired. by apply live_entry_not_DELETE. }
    split; [rewrite <- HvE; by apply Get_of_entry|].
    destruct HJ as [?|Hnone]; [done|congruence].
Qed.

(** ** Several adds of one key before it is processed *)

Lemma Add_on_pending g K v now g1 (dl : list (Entry V)) :
  wf g → queue g = [K] → is_live g K = true →
  step g (OpAdd K v) now = Ok (g1, dl) →
  wf g1 ∧ queue g1 = [K] ∧ is_live g1 K = true
  ∧ ∃ E, items g1 !! K = Some E ∧ live_entry E ∧ Value E = v.
Proof.
  intros Hwf Hq Hlive Hstep. cbn in Hstep.
  destruct (Add g K v now) as [[g2 n]|] eqn:Hadd; [|done].
  injection Hstep as <- <-.
  pose proof (Add_wf g K v now g2 n Hwf Hadd) as Hwf2.
  rewrite Add_merge, Hlive, Hq in Hadd.
  assert (unchanged_hidden (with_queue g [K]) K v = false) as Hu.
  { unfold unchanged_hidden, is_live in *. cbn.
    destruct (items g !! K) as [E|]; [|done].
    apply negb_true_iff in Hlive. by rewrite Hlive. }
  destruct (merge_Get _ K v now g2 n (wf_with_queue g _ Hwf) Hadd) as [_ Hl].
  destruct (Hl Hu) as (E & HE & HlE & HvE).
  split_and!; [done| | |by exists E].
  - apply (merge_enqueued_alone g K v now g2 n Hwf Hadd). by eauto.
  - apply is_live_true. by exists E.
Qed.

Lemma Adds_on_pending g K v0 (more : list (V * Time)) g1 :
  wf g → queue g = [K] →
  (∃ E, items g !! K = Some E ∧ live_entry E ∧ Value E = v0) →
  exec g ((λ vt, (OpAdd K vt.1, vt.2)) <$> more) = Ok g1 →
  queue g1 = [K]
  ∧ ∃ E, items g1 !! K = Some E ∧ live_entry E
         ∧ Value E = default v0 (last more.*1).
Proof.
  revert g v0. induction more as [|[v t] more IH]; intros g v0 Hwf Hq Hlive Hexec.
  - injection Hexec as <-. done.
  - cbn [fmap list_fmap exec fst snd] in Hexec.
    destruct (step_ok g (OpAdd K v) t Hwf) as (g2 & dl & Hstep & _).
    rewrite Hstep in Hexec. cbn in Hexec.
    destruct (Add_on_pending g K v t g2 dl Hwf Hq) as (Hwf2 & Hq2 & _ & Hlive2);
      [apply is_live_true; destruct Hlive as (E & ? & ? & _); by exists E|done|].
    destruct (IH g2 v Hwf2 Hq2 Hlive2 Hexec) as (Hq1 & E & HE & HlE & HvE).
    split; [done|]. exists E. split_and!; [done|done|].
    rewrite HvE. rewrite fmap_cons. cbn [fst]. rewrite last_cons.
    by destruct (last more.*1).
Qed.

(** X15.  What the comment on [HistoricalFIFO] promises, under the
    condition that the first [Add] makes the key live.  Let the pending
    sequence be empty and let [K] have no live entry, and no entry tagged
    Delete or Pop whose value is deep-equal to [v1] either (on such an
    entry [Add(K, v1)] stores nothing and [K] stays hidden).  When [K] is
    added with [v1], and added again any number of times before it is
    processed, it is pending once, [Get] finds the most recent value, [Pop]
    returns the most recent value, and the next [Pop] waits: the key is
    processed once. *)
Theorem adds_coalesce f K v1 t1 (more : list (V * Time)) f1 :
  wf f →
  queue f = [] →
  is_live f K = false →
  unchanged_hidden f K v1 = false →
  exec f ((OpAdd K v1, t1) :: ((λ vt, (OpAdd K vt.1, vt.2)) <$> more)) = Ok f1 →
  let v := default v1 (last more.*1) in
  queue f1 = [K]
  ∧ Get f1 K = Some v
  ∧ ∃ f2 popEvent, Pop f1 = (f2, Returned popEvent v) ∧ Pop f2 = (f2, Waiting).
Proof.
  intros Hwf Hq Hlive Hu Hexec v. subst v. cbn [exec] in Hexec.
  destruct (step_ok f (OpAdd K v1) t1 Hwf) as (g & dl & Hstep & Hwfg).
  rewrite Hstep in Hexec. cbn in Hexec, Hstep.
  destruct (Add f K v1 t1) as [[g' n]|] eqn:Hadd; [|done].
  injection Hstep as -> <-.
  rewrite Add_merge, Hlive, Hq in Hadd. cbn in Hadd.
  destruct (merge_Get _ K v1 t1 g n (wf_with_queue f _ Hwf) Hadd) as [_ Hl].
  destruct (Hl Hu) as (E & HE & HlE & HvE).
  assert (queue g = [K]) as Hqg.
  { apply (merge_enqueued_alone f K v1 t1 g n Hwf Hadd). by eauto. }
  destruct (Adds_on_pending g K v1 more f1 Hwfg Hqg) as (Hq1 & E1 & HE1 & HlE1 & HvE1);
    [by exists E|done|].
  split; [done|]. split; [rewrite <- HvE1; by apply Get_of_entry|].
  destruct (Pop_singleton f1 K Hq1) as [_ Hpop].
  rewrite (Hpop E1 HE1 HlE1), Copy_spec, HvE1.
  eexists _, _. split; [reflexivity|]. by apply Pop_empty.
Qed.

(** ** How a deleted key comes back *)





(** ** When a waiting Pop is served *)




End Properties.

(** * The model at work *)

Section Runs.
#[local] Existing Instance pod_UniqueCopyable.
#[local] Existing Instance map_to_list_range.

Lemma wf_run (calls : list (Op pod * Time)) : wf (run calls).
Proof.
  unfold run. destruct (exec_ok NewFIFO calls wf_NewFIFO) as (f & -> & Hwf).
  exact Hwf.
Qed.

(** Witness of C8: deleting the live key of [calls_added]. *)
Lemma Delete_frame_witness :
  tags_ok (items (run calls_added))
  ∧ ∃ f' t, Delete (run calls_added) "K" 20 = Ok (f', Some t)
      ∧ queue f' = ["K"]
      ∧ items f' !! "K" = Some t
      ∧ t = Tombstone (mkDeletedEntry (mkEntry pod1 DELETE_EVENT) (20 + five_minutes)).
Proof.
  assert (tags_ok (items (run calls_added))) as Htag
    by (apply (bool_decide_unpack _); vm_compute; exact I).
  split; [exact Htag|].
  destruct (Delete_frame (run calls_added) "K" 20 Htag)
    as (f' & n & Hdel & Hq & _ & _ & _ & Hlive).
  destruct (Hlive (PlainEntry (mkEntry pod1 ADD_EVENT))) as (Hitems & -> & _);
    [vm_compute; reflexivity|reflexivity|].
  eexists f', _. split; [exact Hdel|]. split; [by rewrite Hq|].
  split; [|reflexivity]. rewrite Hitems. apply lookup_insert_eq.
Defined.

Lemma run_added : exec NewFIFO calls_added = Ok (run calls_added).
Proof. vm_compute. reflexivity. Qed.

Lemma run_before_sweep :
  exec NewFIFO calls_before_sweep = Ok (run calls_before_sweep).
Proof. vm_compute. reflexivity. Qed.

(** Witness of C2: [K] holds [pod1]; adding [pod2], of another identifier,
    notifies the tombstone of [pod1] and then the new entry. *)
Lemma Add_hidden_delete_witness :
  wf (run calls_added)
  ∧ ∃ f', Add (run calls_added) "K" pod2 30 =
            Ok (f', [Tombstone (mkDeletedEntry (mkEntry pod1 DELETE_EVENT)
                                               (30 + five_minutes));
                     PlainEntry (mkEntry pod2 ADD_EVENT)])
      ∧ items f' !! "K" = Some (PlainEntry (mkEntry pod2 ADD_EVENT)).
Proof.
  assert (wf (run calls_added)) as Hwf
    by (apply (bool_decide_unpack _); vm_compute; exact I).
  split; [exact Hwf|].
  destruct (Add_hidden_delete (run calls_added) "K" pod2 30
              (PlainEntry (mkEntry pod1 ADD_EVENT)) Hwf)
    as (f' & Hadd & Hitems & _);
    [vm_compute; reflexivity|reflexivity|intros Heq; discriminate Heq|].
  exists f'. split; [exact Hadd|exact Hitems].
Defined.


(** Witness of C4: the example of the specification. *)
Lemma Replace_resync_witness :
  wf (run calls_AB)
  ∧ ∃ f' ns, Replace (run calls_AB) newState_BC 20 = Ok (f', ns)
      ∧ List f' ≡ₚ [mkPod "uid-b" 3; mkPod "uid-c" 4]
      ∧ Tombstone (mkDeletedEntry (mkEntry (mkPod "uid-a" 1) DELETE_EVENT)
                                  (20 + five_minutes)) ∈ ns
      ∧ PlainEntry (mkEntry (mkPod "uid-b" 3) UPDATE_EVENT) ∈ ns
      ∧ PlainEntry (mkEntry (mkPod "uid-c" 4) ADD_EVENT) ∈ ns.
Proof.
  assert (wf (run calls_AB)) as Hwf
    by (apply (bool_decide_unpack _); vm_compute; exact I).
  split; [exact Hwf|].
  destruct (Replace_resync (run calls_AB) newState_BC 20 Hwf)
    as (f' & ns & Hrep & _ & _ & _ & _ & _ & _ & Hexample).
  destruct (Hexample "A" "B" "C"
              (mkEntry (mkPod "uid-a" 1) ADD_EVENT)
              (mkEntry (mkPod "uid-b" 2) ADD_EVENT)
              (mkPod "uid-b" 3) (mkPod "uid-c" 4))
    as (Hlist & HA & HB & HC);
    [intros Heq; discriminate Heq|intros Heq; discriminate Heq
    |intros Heq; discriminate Heq|vm_compute; reflexivity|reflexivity
    |reflexivity|reflexivity|].
  exists f', ns. split; [exact Hrep|]. split; [exact Hlist|].
  split; [exact HA|]. split; [exact HB|exact HC].
Defined.

(** Witness of C5: on the tombstone of [K], the mask Add does nothing and
    the mask Delete revives the key with an Update. *)
Lemma Readd_guard_witness :
  items (run calls_deleted) !! "K" =
    Some (Tombstone (mkDeletedEntry (mkEntry pod1 DELETE_EVENT) (20 + five_minutes)))
  ∧ Readd (run calls_deleted) "K" pod1' ADD_EVENT 30 = Ok (run calls_deleted, [])
  ∧ ∃ f', Readd (run calls_deleted) "K" pod1' DELETE_EVENT 30 =
            Ok (f', [PlainEntry (mkEntry pod1' UPDATE_EVENT)]).
Proof.
  assert (items (run calls_deleted) !! "K" =
            Some (Tombstone (mkDeletedEntry (mkEntry pod1 DELETE_EVENT)
                                            (20 + five_minutes)))) as HK
    by (vm_compute; reflexivity).
  split; [exact HK|].
  destruct (Readd_guard (run calls_deleted) "K" pod1' DELETE_EVENT 30 _ HK)
    as (_ & _ & Hnoop & Hrevive).
  split; [apply Hnoop; reflexivity|].
  destruct Hrevive as (f' & n & Hre & _ & _ & _ & _ & _ & Hneq & _);
    [apply (bool_decide_unpack _); vm_compute; exact I|reflexivity|reflexivity|].
  destruct Hneq as (-> & _ & _); [reflexivity|].
  exists f'. exact Hre.
Defined.


(** Witness of C7: the 256th merge resets the counter and sweeps. *)
Lemma merge_counter_and_sweep_witness :
  wf (run calls_before_sweep)
  ∧ gcc (run calls_before_sweep) = 255
  ∧ ∃ f' n, merge (run calls_before_sweep) "K" pod1 much_later = Ok (f', n)
      ∧ gcc f' = 0
      ∧ queue f' `sublist_of` queue (run calls_before_sweep).
Proof.
  assert (wf (run calls_before_sweep)) as Hwf
    by (apply (bool_decide_unpack _); vm_compute; exact I).
  assert (gcc (run calls_before_sweep) = 255) as H255
    by (vm_compute; reflexivity).
  split; [exact Hwf|]. split; [exact H255|].
  destruct (merge_counter_and_sweep (run calls_before_sweep) "K" pod1 much_later Hwf)
    as (its & n & f' & _ & Hm & Hg & _ & _ & Hsweep).
  destruct (Hsweep H255) as (_ & _ & _ & _ & Hsub).
  exists f', n. split; [exact Hm|]. split; [|exact Hsub].
  rewrite Hg, H255. reflexivity.
Defined.

(** Witness of C9: another value merged on the tombstone of [K]. *)
Lemma merge_on_tombstone_witness :
  wf (run calls_deleted)
  ∧ ∃ f', Add (run calls_deleted) "K" pod2 30 =
            Ok (f', [PlainEntry (mkEntry pod2 UPDATE_EVENT)])
      ∧ items f' !! "K" = Some (PlainEntry (mkEntry pod2 UPDATE_EVENT)).
Proof.
  assert (wf (run calls_deleted)) as Hwf
    by (apply (bool_decide_unpack _); vm_compute; exact I).
  split; [exact Hwf|].
  destruct (merge_on_tombstone (run calls_deleted) "K" pod2 30
              (mkDeletedEntry (mkEntry pod1 DELETE_EVENT) (20 + five_minutes))
              (queue (run calls_deleted) ++ ["K"]) Hwf)
    as (f' & n & Hm & Hadd & Hneq & _); [vm_compute; reflexivity|].
  destruct Hneq as [-> Hitems]; [reflexivity|].
  exists f'. split; [|exact Hitems]. rewrite Hadd. exact Hm.
Defined.

(** Witness of C10: the popped entry of [K] outlives a sweep and a call
    on another key. *)
Lemma popped_entry_persists_witness :
  wf (run calls_popped)
  ∧ (∃ f', gc (run calls_popped) 30 = Ok f'
       ∧ items f' !! "K" = Some (PlainEntry (mkEntry pod1 POP_EVENT)))
  ∧ items (run (calls_popped ++ [(OpAdd "J" pod2, 30)])) !! "K" =
      Some (PlainEntry (mkEntry pod1 POP_EVENT)).
Proof.
  assert (wf (run calls_popped)) as Hwf
    by (apply (bool_decide_unpack _); vm_compute; exact I).
  split; [exact Hwf|].
  destruct (popped_entry_persists (run calls_popped) "K"
              (mkEntry pod1 POP_EVENT) 30 Hwf)
    as ((f' & Hgc & Hkept & _) & _ & _ & _ & Hcalls);
    [vm_compute; reflexivity|reflexivity|].
  split; [exists f'; split; [exact Hgc|exact Hkept]|].
  apply (Hcalls [(OpAdd "J" pod2, 30)]).
  - intros op now Hin. apply list_elem_of_singleton in Hin.
    injection Hin as -> ->. reflexivity.
  - vm_compute. reflexivity.
Defined.

(** Witness of C1: [Add] on the live key of [calls_added] appends
    nothing. *)
Lemma enqueue_rule_witness :
  wf (run calls_added)
  ∧ ∃ f' n, Add (run calls_added) "K" pod1' 30 = Ok (f', n)
      ∧ queue f' = ["K"].
Proof.
  assert (wf (run calls_added)) as Hwf
    by (apply (bool_decide_unpack _); vm_compute; exact I).
  split; [exact Hwf|].
  destruct (enqueue_rule (run calls_added) "K" pod1' ADD_EVENT 30 Hwf)
    as ((f' & n & Hadd & _ & _ & Hq) & _).
  exists f', n. split; [exact Hadd|]. rewrite Hq; [reflexivity|].
  intros Heq; discriminate Heq.
Defined.

(** Against C1 as stated.  After [Add(K)], [Delete(K)] and [Add(K)] of
    another value, [K] is live and the pending sequence holds it twice:
    [Delete] has left the first occurrence in place and [Add] has appended
    the second. *)
Lemma pending_duplicate_of_live_key :
  ¬ (∀ (calls : list (Op pod * Time)) (f : HistoricalFIFO pod),
       exec NewFIFO calls = Ok f → at_most_one_pending f).
Proof.
  intros Hclaim.
  assert (exec NewFIFO calls_revived = Ok (run calls_revived)) as Hrun
    by (vm_compute; reflexivity).
  assert (live (run calls_revived) "K") as Hlive.
  { exists (PlainEntry (mkEntry pod1' UPDATE_EVENT)).
    split; [vm_compute; reflexivity|reflexivity]. }
  pose proof (Hclaim calls_revived (run calls_revived) Hrun "K" Hlive) as Hle.
  assert (length (filter (λ k, k = "K") (queue (run calls_revived))) = 2%nat) as Hlen
    by (vm_compute; reflexivity).
  rewrite Hlen in Hle. lia.
Qed.

(** Against C5 as stated.  On the tombstone of [K], [Readd] with the mask
    Add changes nothing and notifies nothing; [K] is not re-added. *)
Lemma Readd_Add_on_tombstone_is_noop :
  items (run calls_deleted) !! "K" =
    Some (Tombstone (mkDeletedEntry (mkEntry pod1 DELETE_EVENT) (20 + five_minutes)))
  ∧ Readd (run calls_deleted) "K" pod1' ADD_EVENT 30 = Ok (run calls_deleted, [])
  ∧ ¬ (∃ f' n e, Readd (run calls_deleted) "K" pod1' ADD_EVENT 30 = Ok (f', n)
         ∧ items f' !! "K" = Some (PlainEntry e)
         ∧ event e = ADD_EVENT).
Proof.
  assert (Readd (run calls_deleted) "K" pod1' ADD_EVENT 30 =
            Ok (run calls_deleted, [])) as Hnoop by (vm_compute; reflexivity).
  split; [vm_compute; reflexivity|]. split; [exact Hnoop|].
  intros (f' & n & e & Hre & Hitems & _). rewrite Hnoop in Hre.
  injection Hre as <- <-. vm_compute in Hitems. discriminate Hitems.
Qed.

(** Against C9 as stated.  [K] holds the tombstone of [pod1], expired at
    [much_later], and the counter is at 255.  [Add(K, pod1)] merges a
    deep-equal value: nothing is notified, but the tombstone does not stay,
    for the sweep of this 256th merge reclaims it. *)
Lemma deep_equal_tombstone_reclaimed :
  exec NewFIFO calls_before_sweep = Ok (run calls_before_sweep)
  ∧ items (run calls_before_sweep) !! "K" =
      Some (Tombstone (mkDeletedEntry (mkEntry pod1 DELETE_EVENT)
                                      (20 + five_minutes)))
  ∧ DeepEqual pod1 pod1 = true
  ∧ ∃ f', Add (run calls_before_sweep) "K" pod1 much_later = Ok (f', [])
      ∧ items f' !! "K" = None.
Proof.
  split; [apply run_before_sweep|].
  split; [vm_compute; reflexivity|]. split; [reflexivity|].
  eexists. split; [vm_compute; reflexivity|]. vm_compute. reflexivity.
Qed.

(** Against C10 as stated.  [K] holds an entry tagged Pop; [Delete(K)],
    which is none of [Add], [Readd] and [Replace], turns it into a
    tombstone. *)
Lemma Delete_tombstones_popped_entry :
  items (run calls_popped) !! "K" = Some (PlainEntry (mkEntry pod1 POP_EVENT))
  ∧ ¬ (∀ (calls : list (Op pod * Time)) (f' : HistoricalFIFO pod),
         (∀ op now, (op, now) ∈ calls → adds_or_replaces op "K" = false) →
         exec (run calls_popped) calls = Ok f' →
         items f' !! "K" = Some (PlainEntry (mkEntry pod1 POP_EVENT))).
Proof.
  split; [vm_compute; reflexivity|]. intros Hclaim.
  assert (items (state_of (exec (run calls_popped) [(OpDelete "K", 30)])) !! "K"
          = Some (PlainEntry (mkEntry pod1 POP_EVENT))) as Hkept.
  { apply (Hclaim [(OpDelete "K", 30)]).
    - intros op now Hin. apply list_elem_of_singleton in Hin.
      injection Hin as -> ->. reflexivity.
    - vm_compute. reflexivity. }
  vm_compute in Hkept. discriminate Hkept.
Qed.

(** Witness of X4: adding again the value of a deleted key finds
    nothing. *)
Lemma Add_then_Get_witness :
  wf (run calls_deleted)
  ∧ ∃ f', Add (run calls_deleted) "K" pod1 30 = Ok (f', [])
      ∧ Get f' "K" = None.
Proof.
  assert (wf (run calls_deleted)) as Hwf
    by (apply (bool_decide_unpack _); vm_compute; exact I).
  split; [exact Hwf|].
  destruct (Add_then_Get (run calls_deleted) "K" pod1 30 Hwf)
    as (f' & n & Hadd & Hhid & _).
  destruct Hhid as (-> & Hget & _); [vm_compute; reflexivity|].
  exists f'. split; [exact Hadd|exact Hget].
Defined.

(** Witness of X5: a popped key added with another value is popped
    again. *)
Lemma Add_then_Pop_witness :
  wf (run calls_popped)
  ∧ queue (run calls_popped) = []
  ∧ ∃ f1 n f2 popEvent, Add (run calls_popped) "K" pod1' 30 = Ok (f1, n)
      ∧ Pop f1 = (f2, Returned popEvent pod1').
Proof.
  assert (wf (run calls_popped)) as Hwf
    by (apply (bool_decide_unpack _); vm_compute; exact I).
  assert (queue (run calls_popped) = []) as Hq by (vm_compute; reflexivity).
  split; [exact Hwf|]. split; [exact Hq|].
  destruct (Add_then_Pop (run calls_popped) "K" pod1' 30 Hwf Hq)
    as (f1 & n & Hadd & _ & _ & Hpop).
  destruct Hpop as (f2 & popEvent & Hpop & _);
    [vm_compute; reflexivity|vm_compute; reflexivity|].
  exists f1, n, f2, popEvent. split; [exact Hadd|exact Hpop].
Defined.

(** Witness of X6: [Readd] of a key on a new queue. *)
Lemma Readd_absent_not_enqueued_witness :
  wf (NewFIFO (V := pod))
  ∧ ∃ f', Readd NewFIFO "K" pod1 POP_EVENT 10 =
            Ok (f', [PlainEntry (mkEntry pod1 ADD_EVENT)])
      ∧ Get f' "K" = Some pod1
      ∧ "K" ∉ queue f'.
Proof.
  assert (wf (NewFIFO (V := pod))) as Hwf
    by (apply (bool_decide_unpack _); vm_compute; exact I).
  split; [exact Hwf|].
  destruct (Readd_absent_not_enqueued NewFIFO "K" pod1 POP_EVENT 10 Hwf)
    as ((f' & Hre & Hget & _ & Hq) & _).
  - intros k Hk. cbn in Hk. destruct (proj1 (elem_of_nil k) Hk).
  - reflexivity.
  - exists f'. split; [exact Hre|]. split; [exact Hget|exact Hq].
Defined.

(** Witness of X7: the retry with the value that was popped is lost. *)
Lemma Readd_after_Pop_witness :
  wf (run calls_popped)
  ∧ ∃ f', Readd (run calls_popped) "K" pod1 POP_EVENT 30 = Ok (f', [])
      ∧ queue f' = ["K"]
      ∧ Get f' "K" = None
      ∧ Pop f' = (with_queue f' [], Waiting).
Proof.
  assert (wf (run calls_popped)) as Hwf
    by (apply (bool_decide_unpack _); vm_compute; exact I).
  split; [exact Hwf|].
  destruct (Readd_after_Pop (run calls_popped) "K" pod1 pod1 30 Hwf)
    as (f' & n & Hre & _ & Hq & Hsame & _); [vm_compute; reflexivity|].
  destruct (Hsame eq_refl) as (-> & _ & Hget & Hpop).
  exists f'. split; [exact Hre|]. split.
  - rewrite Hq; [reflexivity|]. intros Heq; discriminate Heq.
  - split; [exact Hget|]. apply Hpop. reflexivity.
Defined.

(** Witness of X8: two deletes of the key of [calls_added]. *)
Lemma Delete_twice_witness :
  tags_ok (items (run calls_added))
  ∧ ∃ f1 n, Delete (run calls_added) "K" 20 = Ok (f1, n)
      ∧ Delete f1 "K" 99 = Ok (f1, None).
Proof.
  assert (tags_ok (items (run calls_added))) as Htag
    by (apply (bool_decide_unpack _); vm_compute; exact I).
  split; [exact Htag|].
  destruct (Delete_twice (run calls_added) "K" 20 99 Htag)
    as (f1 & n & Hd1 & Hd2 & _).
  exists f1, n. split; [exact Hd1|exact Hd2].
Defined.

(** Witness of X9: a sweep that reclaims the tombstone of [K]. *)
Lemma gc_preserves_reads_witness :
  tags_ok (items (run calls_before_sweep))
  ∧ ∃ f', gc (run calls_before_sweep) much_later = Ok f'
      ∧ Get f' "J" = Get (run calls_before_sweep) "J"
      ∧ "J" ∈ queue f'.
Proof.
  assert (tags_ok (items (run calls_before_sweep))) as Htag
    by (apply (bool_decide_unpack _); vm_compute; exact I).
  split; [exact Htag|].
  destruct (gc_preserves_reads (run calls_before_sweep) much_later Htag)
    as (f' & Hgc & Hget & _ & _ & Hq).
  exists f'. split; [exact Hgc|]. split; [apply Hget|].
  apply Hq; [|vm_compute; reflexivity].
  apply (bool_decide_unpack _). vm_compute. exact I.
Defined.

(** Witness of X10: the same sweep, twice. *)
Lemma gc_idempotent_witness :
  tags_ok (items (run calls_before_sweep))
  ∧ ∃ f1, gc (run calls_before_sweep) much_later = Ok f1
      ∧ gc f1 much_later = Ok f1.
Proof.
  assert (tags_ok (items (run calls_before_sweep))) as Htag
    by (apply (bool_decide_unpack _); vm_compute; exact I).
  split; [exact Htag|].
  destruct (gc_idempotent (run calls_before_sweep) much_later Htag)
    as (f1 & Hgc & Hgc' & _).
  exists f1. split; [exact Hgc|exact Hgc'].
Defined.

(** Witness of X12: the tombstone of [K] through an [Add] of another key
    and a second [Delete]. *)
Lemma tombstone_lingers_witness :
  wf (run calls_deleted)
  ∧ items (run (calls_deleted ++ [(OpAdd "J" pod2, 30); (OpDelete "K", 40)])) !! "K"
    = Some (Tombstone (mkDeletedEntry (mkEntry pod1 DELETE_EVENT) (20 + five_minutes))).
Proof.
  assert (wf (run calls_deleted)) as Hwf
    by (apply (bool_decide_unpack _); vm_compute; exact I).
  split; [exact Hwf|].
  apply (tombstone_lingers (run calls_deleted) "K"
           (mkDeletedEntry (mkEntry pod1 DELETE_EVENT) (20 + five_minutes))
           [(OpAdd "J" pod2, 30); (OpDelete "K", 40)]).
  - exact Hwf.
  - vm_compute. reflexivity.
  - intros op now Hin. apply elem_of_cons in Hin as [Hin|Hin].
    + injection Hin as -> ->. split; [reflexivity|]. vm_compute. discriminate.
    + apply list_elem_of_singleton in Hin. injection Hin as -> ->.
      split; [reflexivity|]. vm_compute. discriminate.
  - vm_compute. reflexivity.
Defined.

(** Witness of X13: [Replace] with an empty map on [{A, B}]. *)
Lemma Replace_empty_witness :
  wf (run calls_AB)
  ∧ ∃ f' ns, Replace (run calls_AB) ∅ 20 = Ok (f', ns)
      ∧ queue f' = []
      ∧ List f' = []
      ∧ Get f' "A" = None.
Proof.
  assert (wf (run calls_AB)) as Hwf
    by (apply (bool_decide_unpack _); vm_compute; exact I).
  split; [exact Hwf|].
  destruct (Replace_empty (run calls_AB) 20 Hwf)
    as (f' & ns & Hrep & Hq & _ & _ & _ & Hget & _ & Hlist).
  exists f', ns. split; [exact Hrep|]. split; [exact Hq|].
  split; [exact Hlist|apply Hget].
Defined.

(** Witness of X14: the example of [Replace], seen through [Get]. *)
Lemma Replace_visible_witness :
  wf (run calls_AB)
  ∧ ∃ f' ns, Replace (run calls_AB) newState_BC 20 = Ok (f', ns)
      ∧ Get f' "B" = Some (mkPod "uid-b" 3)
      ∧ Get f' "C" = Some (mkPod "uid-c" 4)
      ∧ "A" ∉ ContainedIDs f'.
Proof.
  assert (wf (run calls_AB)) as Hwf
    by (apply (bool_decide_unpack _); vm_compute; exact I).
  split; [exact Hwf|].
  destruct (Replace_visible (run calls_AB) newState_BC 20 Hwf)
    as (f' & ns & Hrep & Hids & Hget).
  exists f', ns. split; [exact Hrep|].
  destruct (Hget "B" (mkPod "uid-b" 3)) as [HB _];
    [vm_compute; reflexivity|vm_compute; reflexivity|].
  destruct (Hget "C" (mkPod "uid-c" 4)) as [HC _];
    [vm_compute; reflexivity|vm_compute; reflexivity|].
  split; [exact HB|]. split; [exact HC|].
  intros HA. destruct (Hids "A" HA) as [v Hv]. vm_compute in Hv. discriminate Hv.
Defined.

(** Witness of X15: three adds of [K], one pop. *)
Lemma adds_coalesce_witness :
  wf (NewFIFO (V := pod))
  ∧ ∃ f1 f2 popEvent,
      exec NewFIFO [(OpAdd "K" pod1, 10); (OpAdd "K" pod1', 11); (OpAdd "K" pod2, 12)]
        = Ok f1
      ∧ queue f1 = ["K"]
      ∧ Pop f1 = (f2, Returned popEvent pod2)
      ∧ Pop f2 = (f2, Waiting).
Proof.
  assert (wf (NewFIFO (V := pod))) as Hwf
    by (apply (bool_decide_unpack _); vm_compute; exact I).
  split; [exact Hwf|].
  assert (exec NewFIFO
            ((OpAdd "K" pod1, 10)
             :: ((λ vt : pod * Time, (OpAdd "K" vt.1, vt.2))
                   <$> [(pod1', 11); (pod2, 12)]))
          = Ok (run [(OpAdd "K" pod1, 10); (OpAdd "K" pod1', 11); (OpAdd "K" pod2, 12)]))
    as Hexec by (vm_compute; reflexivity).
  destruct (adds_coalesce NewFIFO "K" pod1 10 [(pod1', 11); (pod2, 12)]
              (run [(OpAdd "K" pod1, 10); (OpAdd "K" pod1', 11); (OpAdd "K" pod2, 12)])
              Hwf)
    as (Hq & _ & f2 & popEvent & Hpop & Hwait);
    [reflexivity|reflexivity|reflexivity|exact Hexec|].
  eexists _, f2, popEvent. split; [exact Hexec|].
  split; [exact Hq|]. split; [exact Hpop|exact Hwait].
Defined.



End Runs.
